(** * Sequential footprint allocation: a shallow embedding of [intersect.py]

    The program partitions a master footprint among an ordered list of
    component shapefiles.  It is a single loop that threads one value, the
    part of the master not yet claimed, through calls to a geometry library
    (geopandas / shapely / pyproj).

    Conventions of the embedding:
    - the geometry library is an interface ([GeometryEngine]); its contract
      (what §6 of the specification asks of it) is [GeometryLaws];
    - the file system is a [World]: what [gpd.read_file] returns for the
      paths it can read and what [Path.rglob] enumerates under a root; a
      path that cannot be read, and a failure inside a library call, are
      outside the embedding, and no statement speaks of them;
    - in the allocation loop an area is an exact rational ([Q]), the value
      the program's binary64 float approximates; the aggregator (lines
      122-128) is also written for the arithmetic of the column whatever
      it is, with binary64 floats as an instance, since its sums and its
      rounding depend on the representation;
    - a Python [str] is a [string] of bytes (UTF-8), whose byte-wise
      lexicographic order agrees with Python's order on code points;
    - exceptions and calls into the library are explicit: a computation
      returns the list of library calls it made, in order, together with
      either the exception raised or its value. *)

From Stdlib Require Import List String Ascii Bool Arith ZArith QArith Qround Lia Lqa.
From Stdlib Require Import Sorting.Mergesort Sorting.Sorted Sorting.Permutation.
From Stdlib Require Import Structures.Orders Structures.OrderedTypeEx.
From Corelib Require PrimInt63 PrimFloat.
Import ListNotations.

Local Open Scope string_scope.
Local Open Scope list_scope.

(** ** Coordinate reference systems *)

(** A [pyproj.CRS] as far as the program looks at it: its authority code
    and the [is_geographic] flag. *)
Record CRS : Type := mkCRS {
  crs_code : string;
  is_geographic : bool
}.

Definition CRS_eqb (a b : CRS) : bool :=
  String.eqb (crs_code a) (crs_code b)
  && Bool.eqb (is_geographic a) (is_geographic b).

(** [comp.crs != master.crs] compares two optional reference systems. *)
Definition crs_ne (a b : option CRS) : bool :=
  match a, b with
  | Some x, Some y => negb (CRS_eqb x y)
  | None, None => false
  | _, _ => true
  end.

(** The target of line 36, ["EPSG:5551"].  The EPSG registry lists it as
    PNG94 / PNGMG94 zone 55, a projected (transverse Mercator) system. *)
Definition EPSG_5551 : CRS := mkCRS "EPSG:5551" false.

(** The system the docstring of [_ensure_projected_equal_area] names:
    World Cylindrical Equal Area. *)
Definition documented_equal_area_code : string := "EPSG:6933".

(** ** Exceptions and library calls *)

(** The exceptions the program raises itself (lines 33, 69, 98) and the
    two it can provoke by how it calls the library: [to_crs] without a
    reference system, [groupby] on a missing column. *)
Inductive exn : Type :=
| ValueError_MasterEmpty                (* "Master footprint is empty." *)
| ValueError_NoCRS                      (* "Input layer has no CRS defined. ..." *)
| ValueError_ComponentNoCRS (shp : string)  (* "Component has no CRS: {shp}" *)
| ValueError_NaiveToCrs                 (* geopandas: to_crs without a source or target CRS *)
| KeyError (key : string).              (* pandas: groupby on an absent column *)

(** The two exceptions that report a layer without a reference system. *)
Definition is_missing_crs (e : exn) : bool :=
  match e with
  | ValueError_NoCRS | ValueError_ComponentNoCRS _ => true
  | _ => false
  end.

Inductive event : Type :=
| EvRead (path : string)        (* gpd.read_file(path) *)
| EvRglob (root : string)       (* Path(root).rglob("*.shp") *)
| EvMakeValid                   (* GeoSeries.make_valid() *)
| EvToCrs (target : CRS)        (* GeoDataFrame.to_crs(target) *)
| EvUnionAll                    (* GeoDataFrame.union_all() *)
| EvIntersection                (* geometry.intersection(other) *)
| EvDifference                  (* geometry.difference(other) *)
| EvArea.                       (* geometry.area *)

(** The four kinds of geometry work the allocation loop does on a component. *)
Definition is_geometry_work (ev : event) : bool :=
  match ev with
  | EvToCrs _ | EvUnionAll | EvIntersection | EvDifference => true
  | _ => false
  end.

(** A computation: the calls made so far, and an exception or a value. *)
Definition M (A : Type) : Type := (list event * (exn + A))%type.

Definition ret {A : Type} (a : A) : M A := ([], inr a).
Definition raise {A : Type} (e : exn) : M A := ([], inl e).
Definition tell (ev : event) : M unit := ([ev], inr tt).

Definition bind {A B : Type} (m : M A) (k : A -> M B) : M B :=
  match m with
  | (l, inl e) => (l, inl e)
  | (l, inr a) => let (l', r) := k a in (l ++ l', r)
  end.

Declare Scope py_scope.
Delimit Scope py_scope with py.
Notation "x <- m ;; k" := (bind m (fun x => k))
  (at level 100, m at next level, right associativity) : py_scope.
Notation "' p <- m ;; k" := (bind m (fun p => k))
  (at level 100, p pattern, m at next level, right associativity) : py_scope.
Notation "m ;;; k" := (bind m (fun _ => k))
  (at level 100, right associativity) : py_scope.

Definition calls {A : Type} (m : M A) : list event := fst m.
Definition outcome {A : Type} (m : M A) : exn + A := snd m.

(** ** Paths ([pathlib.PurePosixPath]) *)

Fixpoint split_on (sep : ascii) (s : string) : list string :=
  match s with
  | EmptyString => [EmptyString]
  | String c s' =>
      if Ascii.eqb c sep then EmptyString :: split_on sep s'
      else match split_on sep s' with
           | [] => [String c EmptyString]
           | h :: t => String c h :: t
           end
  end.

(** The parts of a path: empty parts and ["."] are dropped. *)
Definition path_parts (p : string) : list string :=
  filter (fun part => negb (String.eqb part "") && negb (String.eqb part "."))
         (split_on "/"%char p).

Definition path_name (p : string) : string := last (path_parts p) "".

(** [Path(p).parent.name] *)
Definition parent_name (p : string) : string :=
  last (removelast (path_parts p)) "".

Fixpoint rfind_dot (s : string) (i : nat) : option nat :=
  match s with
  | EmptyString => None
  | String c s' =>
      match rfind_dot s' (S i) with
      | Some j => Some j
      | None => if Ascii.eqb c "."%char then Some i else None
      end
  end.

(** [Path(p).stem]: the name without its last suffix; a leading or a
    trailing dot starts no suffix. *)
Definition stem (p : string) : string :=
  let name := path_name p in
  match rfind_dot name 0 with
  | Some i =>
      if (0 <? i)%nat && (i <? String.length name - 1)%nat
      then substring 0 i name else name
  | None => name
  end.

(** ** Sorting strings ([sorted] on a list of [str]) *)

Module StringOrder <: TotalLeBool.
Definition t := string.
Definition leb := String.leb.
Theorem leb_total : forall a1 a2, leb a1 a2 = true \/ leb a2 a1 = true.
Proof. exact String.leb_total. Qed.
End StringOrder.

Module StringSort := Sort StringOrder.

Definition sorted (l : list string) : list string := StringSort.sort l.

(** ** Numbers *)

Local Open Scope Q_scope.

Fixpoint Qsum (l : list Q) : Q :=
  match l with
  | [] => 0
  | x :: r => x + Qsum r
  end.

(** Round to the nearest integer, ties to the even one ([numpy.rint]). *)
Definition rint (x : Q) : Z :=
  let f := Qfloor x in
  match Qcompare (x - inject_Z f) (1 # 2) with
  | Lt => f
  | Gt => (f + 1)%Z
  | Eq => if Z.even f then f else (f + 1)%Z
  end.

(** [Series.round(1)] on exact rationals. *)
Definition round1 (x : Q) : Q := inject_Z (rint (x * 10)) / 10.

(** ** The geometry library *)

Class GeometryEngine : Type := {
  geom : Type;
  (** the set of points a geometry stands for *)
  point : Type;
  covers : geom -> point -> Prop;
  (** [shapely.make_valid]; [None] is a null result *)
  make_valid : geom -> option geom;
  reproject : CRS -> CRS -> geom -> geom;
  union : list geom -> geom;
  intersection : geom -> geom -> geom;
  difference : geom -> geom -> geom;
  area : geom -> Q;
  is_empty : geom -> bool
}.

(** What the program needs from the library (§6 of the specification). *)
Class GeometryLaws (E : GeometryEngine) : Prop := {
  covers_union : forall gs p,
    covers (union gs) p <-> exists g, In g gs /\ covers g p;
  covers_intersection : forall a b p,
    covers (intersection a b) p <-> covers a p /\ covers b p;
  covers_difference : forall a b p,
    covers (difference a b) p <-> covers a p /\ ~ covers b p;
  is_empty_covers : forall g,
    is_empty g = true <-> forall p, ~ covers g p;
  area_nonneg : forall g, 0 <= area g;
  area_ext : forall a b,
    (forall p, covers a p <-> covers b p) -> area a == area b;
  area_split : forall a b,
    area b == area (intersection a b) + area (difference b a)
}.

(** ** Data of the program *)

(** One allocation record, [{"Layer": ..., "area_ha": ...}]; also one row
    of the final table. *)
Record record : Type := mkRecord {
  Layer : string;
  area_ha : Q
}.

(** How an iteration of the loop ends: [continue] or falling off the end
    of the body ([Next]), or [break]. *)
Inductive control : Type := Next | Break.

Section Program.

Context {E : GeometryEngine}.

(** A [GeoDataFrame]: its geometry column (a row may be null) and its
    reference system ([None] when the layer declares none). *)
Record GeoDataFrame : Type := mkGDF {
  geometry : list (option geom);
  crs : option CRS
}.

(** The file system the run sees: [read_file] gives the frame
    [gpd.read_file] returns for a path it can read; [rglob_shp] enumerates
    in an order the program does not control. *)
Record World : Type := mkWorld {
  read_file : string -> GeoDataFrame;
  rglob_shp : string -> list string
}.

Variable W : World.

Definition len (gdf : GeoDataFrame) : nat := List.length (geometry gdf).

Definition notnull (o : option geom) : bool :=
  match o with Some _ => true | None => false end.

(** [gdf[gdf.geometry.notnull()].copy()] *)
Definition keep_notnull (gdf : GeoDataFrame) : GeoDataFrame :=
  mkGDF (filter notnull (geometry gdf)) (crs gdf).

Definition make_valid_column (gdf : GeoDataFrame) : GeoDataFrame :=
  mkGDF (map (fun o => match o with Some g => make_valid g | None => None end)
             (geometry gdf))
        (crs gdf).

Definition geoms (gdf : GeoDataFrame) : list geom :=
  flat_map (fun o => match o with Some g => [g] | None => [] end) (geometry gdf).

(** *** Library calls, each leaving its mark *)

Definition to_crs (gdf : GeoDataFrame) (target : option CRS) : M GeoDataFrame :=
  match crs gdf, target with
  | Some src, Some dst =>
      (tell (EvToCrs dst) ;;;
       ret (mkGDF (map (option_map (reproject src dst)) (geometry gdf)) (Some dst)))%py
  | _, _ => raise ValueError_NaiveToCrs
  end.

Definition union_all (gdf : GeoDataFrame) : M geom :=
  (tell EvUnionAll ;;; ret (union (geoms gdf)))%py.

Definition geom_intersection (a b : geom) : M geom :=
  (tell EvIntersection ;;; ret (intersection a b))%py.

Definition geom_difference (a b : geom) : M geom :=
  (tell EvDifference ;;; ret (difference a b))%py.

Definition geom_area (g : geom) : M Q :=
  (tell EvArea ;;; ret (area g))%py.

(** *** [_read_any_vector] (lines 7-16) *)
Definition _read_any_vector (path : string) : M GeoDataFrame :=
  (tell (EvRead path) ;;;
   let gdf := keep_notnull (read_file W path) in
   if (len gdf =? 0)%nat then ret gdf
   else
     tell EvMakeValid ;;;
     let gdf := make_valid_column gdf in
     ret (keep_notnull gdf))%py.

(** *** [_find_shapefiles] (lines 19-22) *)
Definition _find_shapefiles (root_folder : string) : M (list string) :=
  (tell (EvRglob root_folder) ;;; ret (rglob_shp W root_folder))%py.

(** *** [_ensure_projected_equal_area] (lines 25-37) *)
Definition _ensure_projected_equal_area (gdf : GeoDataFrame) : M GeoDataFrame :=
  match crs gdf with
  | None => raise ValueError_NoCRS
  | Some c =>
      if is_geographic c then to_crs gdf (Some EPSG_5551)
      else ret gdf
  end.

(** *** [allocate_non_overlapping_areas] (lines 40-130), by its phases *)

(** "read master" (lines 67-73) *)
Definition read_master (master_path : string) : M (GeoDataFrame * geom) :=
  (master <- _read_any_vector master_path ;;
   if (len master =? 0)%nat then raise ValueError_MasterEmpty
   else
     master <- _ensure_projected_equal_area master ;;
     master_union <- union_all master ;;
     ret (master, master_union))%py.

(** "find components" (lines 76-78) *)
Definition find_components (components_root : string) (sort_layers : bool)
  : M (list string) :=
  (shp_paths <- _find_shapefiles components_root ;;
   ret (if sort_layers then sorted shp_paths else shp_paths))%py.

(** "determine layer name" (lines 85-89) *)
Definition layer_name_of (layer_name_from shp : string) : string :=
  if String.eqb layer_name_from "filename" then stem shp else parent_name shp.

(** "Reproject components to master's CRS" (lines 96-103): from the
    loaded component to its dissolved geometry in the master's frame. *)
Definition conform_component (master : GeoDataFrame) (shp : string)
    (comp : GeoDataFrame) : M geom :=
  match crs comp with
  | None => raise (ValueError_ComponentNoCRS shp)
  | Some _ =>
      (comp <- (if crs_ne (crs comp) (crs master)
                then to_crs comp (crs master) else ret comp) ;;
       comp <- _ensure_projected_equal_area comp ;;
       union_all comp)%py
  end.

(** "Intersect component with remaining master" (lines 105-114): the
    allocated geometry, its area in hectares and the new remaining
    geometry. *)
Definition intersect_with_remaining (comp_union master_union : geom)
  : M (geom * Q * geom) :=
  (allocated_geom <- geom_intersection comp_union master_union ;;
   if is_empty allocated_geom then ret (allocated_geom, 0, master_union)
   else
     a <- geom_area allocated_geom ;;
     master_union' <- geom_difference master_union allocated_geom ;;
     ret (allocated_geom, a / 10000, master_union'))%py.

(** The body of the [for] loop (lines 84-120), on the loop's state: the
    remaining geometry [master_union] and the list [results]. *)
Definition loop_body (master : GeoDataFrame) (layer_name_from shp : string)
    (st : geom * list record) : M (control * (geom * list record)) :=
  let '(master_union, results) := st in
  let layer_name := layer_name_of layer_name_from shp in
  (comp <- _read_any_vector shp ;;
   if (len comp =? 0)%nat
   then ret (Next, (master_union, results ++ [mkRecord layer_name 0]))
   else
     comp_union <- conform_component master shp comp ;;
     '(_, allocated_area_ha, master_union) <-
        intersect_with_remaining comp_union master_union ;;
     let results := results ++ [mkRecord layer_name allocated_area_ha] in
     if is_empty master_union then ret (Break, (master_union, results))
     else ret (Next, (master_union, results)))%py.

(** "sequential allocation" (line 83): the [for] loop. *)
Fixpoint sequential_allocation (master : GeoDataFrame) (layer_name_from : string)
    (shp_paths : list string) (st : geom * list record)
  : M (geom * list record) :=
  match shp_paths with
  | [] => ret st
  | shp :: rest =>
      ('(c, st') <- loop_body master layer_name_from shp st ;;
       match c with
       | Break => ret st'
       | Next => sequential_allocation master layer_name_from rest st'
       end)%py
  end.

(** Lines 66-120: everything up to the end of the loop, with the final
    remaining geometry and the records emitted. *)
Definition run_allocation (components_root master_path layer_name_from : string)
    (sort_layers : bool) : M (geom * list record) :=
  ('(master, master_union) <- read_master master_path ;;
   shp_paths <- find_components components_root sort_layers ;;
   sequential_allocation master layer_name_from shp_paths (master_union, []))%py.

End Program.

(** *** The result aggregator (lines 122-128) *)

(** The group keys of [groupby("Layer")]: each name once, ascending. *)
Definition group_keys (df : list record) : list string :=
  nodup string_dec (sorted (map Layer df)).

Definition group_total (df : list record) (k : string) : Q :=
  Qsum (map area_ha (filter (fun r => String.eqb (Layer r) k) df)).

(** [df.groupby("Layer", as_index=False)["area_ha"].sum()]; a frame built
    from an empty list has no column ["Layer"]. *)
Definition groupby_sum (df : list record) : M (list record) :=
  match df with
  | [] => raise (KeyError "Layer")
  | _ => ret (map (fun k => mkRecord k (group_total df k)) (group_keys df))
  end.

Definition round_column (df : list record) : list record :=
  map (fun r => mkRecord (Layer r) (round1 (area_ha r))) df.

Definition aggregate (results : list record) : M (list record) :=
  (df <- groupby_sum results ;; ret (round_column df))%py.

Definition allocate_non_overlapping_areas {E : GeometryEngine} (W : World)
    (components_root master_path layer_name_from : string) (sort_layers : bool)
  : M (list record) :=
  ('(_, results) <- run_allocation W components_root master_path
                                   layer_name_from sort_layers ;;
   aggregate results)%py.


(** ** A raster engine

    Geometries as finite sets of grid cells, every cell of the same area
    in square metres.  It is the engine of the worked examples below. *)

Module Raster.

Definition cells : Type := list nat.

Definition mem (x : nat) (g : cells) : bool := existsb (Nat.eqb x) g.

Fixpoint dedup (g : cells) : cells :=
  match g with
  | [] => []
  | x :: r => if mem x r then dedup r else x :: dedup r
  end.

Definition count (g : cells) : nat := List.length (dedup g).

Definition inter (a b : cells) : cells := filter (fun x => mem x a) b.
Definition diff (a b : cells) : cells := filter (fun x => negb (mem x b)) a.
Definition empty (g : cells) : bool :=
  match g with [] => true | _ :: _ => false end.

Definition engine (cell_m2 : positive) : GeometryEngine := {|
  geom := cells;
  point := nat;
  covers := fun g p => In p g;
  make_valid := fun g => Some g;
  reproject := fun _ _ g => g;
  union := fun gs => List.concat gs;
  intersection := inter;
  difference := diff;
  area := fun g => inject_Z (Z.of_nat (count g) * Zpos cell_m2);
  is_empty := empty
|}.

(** The cells [lo, lo+1, ..., lo+n-1]. *)
Definition strip (lo n : nat) : cells := seq lo n.

End Raster.

(** ** Notions the statements use *)

Definition total_area_ha (records : list record) : Q :=
  Qsum (map area_ha records).

(** The paths read, in order, among a list of library calls. *)
Definition reads (l : list event) : list string :=
  flat_map (fun ev => match ev with EvRead p => [p] | _ => [] end) l.

(** The hectares recorded for an allocated geometry (lines 108-112). *)
Definition recorded_area {E : GeometryEngine} (allocated : geom) : Q :=
  if is_empty allocated then 0 else area allocated / 10000.

(** The library calls of the allocation part of an iteration. *)
Definition allocation_calls {E : GeometryEngine} (comp_union master_union : geom)
  : list event :=
  calls (intersect_with_remaining comp_union master_union).

(** The remaining geometry after a component is allocated (lines 108-114). *)
Definition remaining_after {E : GeometryEngine} (comp_union master_union : geom)
  : geom :=
  let allocated := intersection comp_union master_union in
  if is_empty allocated then master_union
  else difference master_union allocated.

(** How an iteration that allocated ends (lines 119-120). *)
Definition control_after {E : GeometryEngine} (master_union : geom) : control :=
  if is_empty master_union then Break else Next.

Section Loaded.

Context {E : GeometryEngine}.
Variable W : World.

(** The loaded-and-validated geometry set of a source file: the value
    of [_read_any_vector]. *)
Definition validated (path : string) : GeoDataFrame :=
  let gdf := keep_notnull (read_file W path) in
  if (len gdf =? 0)%nat then gdf
  else keep_notnull (make_valid_column gdf).

(** The library calls of [_read_any_vector]. *)
Definition read_calls (path : string) : list event :=
  if (len (keep_notnull (read_file W path)) =? 0)%nat
  then [EvRead path] else [EvRead path; EvMakeValid].

(** A component file is visited when the loop reads it. *)
Definition visited (master : GeoDataFrame) (layer_name_from : string)
    (shp_paths : list string) (master_union : geom) (shp : string) : Prop :=
  In (EvRead shp)
     (calls (sequential_allocation W master layer_name_from shp_paths
                                   (master_union, []))).

(** Among the files read in [l], [shp] has features but declares no
    reference system. *)
Definition lacks_crs_in (l : list event) (shp : string) : Prop :=
  In (EvRead shp) l
  /\ len (validated shp) <> 0%nat
  /\ crs (read_file W shp) = None.

(** The three ways an iteration of the loop can go. *)
Inductive body_view (master : GeoDataFrame) (layer_name_from shp : string)
    (master_union : geom) (results : list record)
  : M (control * (geom * list record)) -> Prop :=
| body_empty :
    len (validated shp) = 0%nat ->
    body_view master layer_name_from shp master_union results
      (read_calls shp,
       inr (Next, (master_union,
                   results ++ [mkRecord (layer_name_of layer_name_from shp) 0])))
| body_raise lc e :
    len (validated shp) <> 0%nat ->
    conform_component master shp (validated shp) = (lc, inl e) ->
    body_view master layer_name_from shp master_union results
      (read_calls shp ++ lc, inl e)
| body_allocate lc comp_union :
    len (validated shp) <> 0%nat ->
    conform_component master shp (validated shp) = (lc, inr comp_union) ->
    body_view master layer_name_from shp master_union results
      (read_calls shp ++ lc ++ allocation_calls comp_union master_union,
       inr (control_after (remaining_after comp_union master_union),
            (remaining_after comp_union master_union,
             results ++ [mkRecord (layer_name_of layer_name_from shp)
                           (recorded_area (intersection comp_union master_union))]))).

End Loaded.

(** The order of [sorted]: byte-wise lexicographic. *)
Definition string_le (a b : string) : Prop := String.leb a b = true.

(** *** Order sensitivity *)

(** The ground two components contest lies within a master geometry. *)
Definition overlap_within {E : GeometryEngine} (a b master_union : geom) : Prop :=
  forall p, covers a p -> covers b p -> covers master_union p.

(** Files [first] and [second], whose dissolved geometries are [a] and [b],
    are processed in this order.  The record of [first] is for
    [intersection a master_union], which covers all of the contested
    ground; a record of [second], if the loop gets to it, is for a
    geometry that covers none of it. *)
Definition contested_goes_to_first {E : GeometryEngine} (W : World)
    (master : GeoDataFrame) (layer_name_from : string) (master_union : geom)
    (first second : string) (a b : geom) : Prop :=
  let g1 := intersection a master_union in
  let g2 := intersection b (remaining_after a master_union) in
  exists l remaining later,
    sequential_allocation W master layer_name_from [first; second] (master_union, [])
    = (l, inr (remaining,
               mkRecord (layer_name_of layer_name_from first) (recorded_area g1)
               :: later))
    /\ (later = []
        \/ later = [mkRecord (layer_name_of layer_name_from second) (recorded_area g2)])
    /\ (forall p, covers a p -> covers b p -> covers g1 p /\ ~ covers g2 p)
    /\ area (intersection g1 (intersection a b)) == area (intersection a b)
    /\ area (intersection g2 (intersection a b)) == 0.

(** *** Aborting for want of a reference system *)

Definition aborts_missing_crs {A : Type} (m : M A) : Prop :=
  exists e, outcome m = inl e /\ is_missing_crs e = true.

(** The component files in the order the loop takes them (lines 76-78). *)
Definition component_paths {E : GeometryEngine} (W : World)
    (components_root : string) (sort_layers : bool) : list string :=
  if sort_layers then sorted (rglob_shp W components_root)
  else rglob_shp W components_root.

(** A component file is visited in a run when the master was read and the
    loop over the components reads the file. *)
Definition visited_in_run {E : GeometryEngine} (W : World)
    (components_root master_path layer_name_from : string) (sort_layers : bool)
    (shp : string) : Prop :=
  exists lm master master_union,
    read_master W master_path = (lm, inr (master, master_union))
    /\ visited W master layer_name_from
               (component_paths W components_root sort_layers) master_union shp.

(** Some visited component has features but declares no reference system. *)
Definition some_component_lacks_crs {E : GeometryEngine} (W : World)
    (components_root master_path layer_name_from : string) (sort_layers : bool)
  : Prop :=
  exists shp,
    visited_in_run W components_root master_path layer_name_from sort_layers shp
    /\ len (validated W shp) <> 0%nat
    /\ crs (read_file W shp) = None.

(** The run aborts for want of a reference system exactly when the master
    declares none or some visited non-empty component declares none. *)
Definition missing_crs_iff_master_or_component {E : GeometryEngine} (W : World)
    (components_root master_path layer_name_from : string) (sort_layers : bool)
  : Prop :=
  aborts_missing_crs
    (allocate_non_overlapping_areas W components_root master_path
                                    layer_name_from sort_layers)
  <-> (crs (read_file W master_path) = None
       \/ some_component_lacks_crs W components_root master_path
                                   layer_name_from sort_layers).

(** ** Worlds over the raster engine, for the worked examples *)

Module Examples.

(** Cells of 10 ha. *)
Definition E10 : GeometryEngine := Raster.engine 100000.

Definition laea : CRS := mkCRS "EPSG:3035" false.
Definition wgs84 : CRS := mkCRS "EPSG:4326" true.

Definition layer {E : GeometryEngine} (gs : list geom) (c : option CRS)
  : GeoDataFrame := mkGDF (map Some gs) c.

Definition world_of {E : GeometryEngine}
    (files : list (string * GeoDataFrame)) (listing : list string) : World :=
  mkWorld
    (fun p => match find (fun f => String.eqb (fst f) p) files with
              | Some f => snd f
              | None => mkGDF [] None
              end)
    (fun _ => listing).

(** A master of 100 ha in an equal-area projected system; being projected
    already, it is also the layer [read_master] hands to the loop. *)
Definition master10 : @GeoDataFrame E10 :=
  @layer E10 [Raster.strip 0 10] (Some laea).

(** The example of §8: a master of 100 ha, A on its left 60 ha, B on its
    right 70 ha; the enumeration lists B before A. *)
Definition ab_files : list (string * @GeoDataFrame E10) :=
  [ ("master.shp", master10);
    ("data/A/a.shp", @layer E10 [Raster.strip 0 6] (Some laea));
    ("data/B/b.shp", @layer E10 [Raster.strip 3 7] (Some laea)) ].

Definition ab_world : @World E10 :=
  world_of ab_files ["data/B/b.shp"; "data/A/a.shp"].

(** The same files, enumerated the other way round. *)
Definition ab_world' : @World E10 :=
  world_of ab_files ["data/A/a.shp"; "data/B/b.shp"].

(** A first component that covers the whole master, followed by B. *)
Definition full_world : @World E10 :=
  world_of
    [ ("master.shp", master10);
      ("data/A/a.shp", @layer E10 [Raster.strip 0 12] (Some laea));
      ("data/B/b.shp", @layer E10 [Raster.strip 3 7] (Some laea)) ]
    ["data/A/a.shp"; "data/B/b.shp"].

(** A component file without features and without a reference system,
    then B. *)
Definition hollow_world : @World E10 :=
  world_of
    [ ("master.shp", master10);
      ("data/A/a.shp", mkGDF [None] None);
      ("data/B/b.shp", @layer E10 [Raster.strip 3 7] (Some laea)) ]
    ["data/A/a.shp"; "data/B/b.shp"].

(** A component with features but no reference system. *)
Definition naive_world : @World E10 :=
  world_of
    [ ("master.shp", master10);
      ("data/A/a.shp", @layer E10 [Raster.strip 0 6] None) ]
    ["data/A/a.shp"].

(** A master file without features and without a reference system. *)
Definition void_world : @World E10 :=
  world_of [ ("master.shp", mkGDF [] None) ] ["data/A/a.shp"].

(** A layer in geographic coordinates. *)
Definition wgs84_layer : @GeoDataFrame E10 :=
  @layer E10 [Raster.strip 0 10] (Some wgs84).

End Examples.

(** ** Further notions and worlds *)

(** Strictly ascending, for the byte-wise lexicographic order. *)
Definition string_lt (a b : string) : Prop := string_le a b /\ a <> b.

(** The layer names of the files read among a list of library calls. *)
Definition names_read (layer_name_from : string) (l : list event) : list string :=
  map (layer_name_of layer_name_from) (reads l).

(** A character occurs in a string. *)
Fixpoint occurs (c : ascii) (s : string) : bool :=
  match s with
  | EmptyString => false
  | String d s' => Ascii.eqb d c || occurs c s'
  end.

(** A file name: not empty, not ["."], without a separator. *)
Definition is_file_name (f : string) : Prop :=
  f <> "" /\ f <> "." /\ occurs "/"%char f = false.

(** Among the files read in [l], [shp] has features and was dissolved, in
    the master's frame, to [comp_union]: the loop allocated it. *)
Definition allocated_in {E : GeometryEngine} (W : World) (master : GeoDataFrame)
    (l : list event) (shp : string) (comp_union : geom) : Prop :=
  In shp (reads l)
  /\ len (validated W shp) <> 0%nat
  /\ exists lc, conform_component master shp (validated W shp) = (lc, inr comp_union).

Module MoreExamples.

(** A master in geographic coordinates; A in another projected system, B
    already in the system the master is brought to, N with null rows. *)
Definition mixed_world : @World Examples.E10 :=
  Examples.world_of
    [ ("master.shp", @Examples.layer Examples.E10 [Raster.strip 0 10]
                       (Some Examples.wgs84));
      ("data/A/a.shp", @Examples.layer Examples.E10 [Raster.strip 0 6]
                         (Some Examples.laea));
      ("data/B/b.shp", @Examples.layer Examples.E10 [Raster.strip 3 4]
                         (Some EPSG_5551));
      ("data/N/n.shp", @mkGDF Examples.E10 [None; Some (Raster.strip 8 4); None]
                         (Some Examples.laea)) ]
    ["data/N/n.shp"; "data/B/b.shp"; "data/A/a.shp"].

(** The master the loop works with in [mixed_world]. *)
Definition mixed_master : @GeoDataFrame Examples.E10 :=
  @Examples.layer Examples.E10 [Raster.strip 0 10] (Some EPSG_5551).

(** A master and no shapefile under the components root. *)
Definition lonely_world : @World Examples.E10 :=
  Examples.world_of [ ("master.shp", Examples.master10) ] [].

(** B lies within A. *)
Definition nested_world : @World Examples.E10 :=
  Examples.world_of
    [ ("master.shp", Examples.master10);
      ("data/A/a.shp", @Examples.layer Examples.E10 [Raster.strip 0 6]
                         (Some Examples.laea));
      ("data/B/b.shp", @Examples.layer Examples.E10 [Raster.strip 2 3]
                         (Some Examples.laea)) ]
    ["data/A/a.shp"; "data/B/b.shp"].

(** Records of two layers, out of order. *)
Definition three_records : list record :=
  [ mkRecord "B" (3 # 10); mkRecord "A" (1 # 4); mkRecord "B" (1 # 2) ].

End MoreExamples.

(** ** The aggregator over the arithmetic of a column

    Lines 122-128 group, add and round a column of Python floats.  The
    grouping is the program's; adding a column and rounding it are the
    library's and depend on the number representation.  Here the aggregator
    is written once for any such arithmetic; [aggregate] above is its
    instance at exact rationals, and [Binary64] below gives the arithmetic
    of binary64 floats. *)

Class ColumnArithmetic : Type := {
  num : Type;
  (** the sum of the values of one group, in row order *)
  column_sum : list num -> num;
  (** [round(1)] of one value *)
  round_1 : num -> num
}.

Section Aggregator.

Context {A : ColumnArithmetic}.

(** A row of a frame with the columns [Layer] and [area_ha]. *)
Record row : Type := mkRow {
  row_layer : string;
  row_area : num
}.

(** The group keys of [groupby("Layer")]: each name once, ascending. *)
Definition keys_of_rows (df : list row) : list string :=
  nodup string_dec (sorted (map row_layer df)).

(** [df.groupby("Layer", as_index=False)["area_ha"].sum()] *)
Definition groupby_sum_rows (df : list row) : M (list row) :=
  match df with
  | [] => raise (KeyError "Layer")
  | _ =>
      ret (map (fun k =>
                  mkRow k (column_sum
                             (map row_area
                                  (filter (fun r => String.eqb (row_layer r) k) df))))
               (keys_of_rows df))
  end.

(** [df["area_ha"] = df["area_ha"].round(1)] *)
Definition round_rows (df : list row) : list row :=
  map (fun r => mkRow (row_layer r) (round_1 (row_area r))) df.

(** Lines 122-128. *)
Definition aggregate_rows (results : list row) : M (list row) :=
  (df <- groupby_sum_rows results ;; ret (round_rows df))%py.

(** The values recorded under a layer name, in the order of the records:
    what the statements about the table are measured against. *)
Fixpoint areas_of_layer (name : string) (results : list row) : list num :=
  match results with
  | [] => []
  | r :: rest =>
      if String.eqb (row_layer r) name
      then row_area r :: areas_of_layer name rest
      else areas_of_layer name rest
  end.

End Aggregator.

(** Exact rationals: the arithmetic of [aggregate]. *)
Definition exact_arithmetic : ColumnArithmetic :=
  {| num := Q; column_sum := Qsum; round_1 := round1 |}.

Definition row_of_record (r : record) : @row exact_arithmetic :=
  @mkRow exact_arithmetic (Layer r) (area_ha r).

Definition record_of_row (r : @row exact_arithmetic) : record :=
  mkRecord (row_layer r) (row_area r).

(** Binary64 floats: what [numpy] and [pandas] compute with. *)
Module Binary64.
Import PrimInt63 PrimFloat.

Definition two52 : float := of_uint63 4503599627370496%uint63.

(** Round to the nearest integer, ties to even ([rint]), by the shift
    through 2^52 under the default rounding mode. *)
Definition rint (x : float) : float :=
  let a := abs x in
  if ltb a two52
  then let r := sub (add a two52) two52 in
       if ltb x zero then opp r else r
  else x.











End Binary64.

(** * Properties *)

(** ** The raster engine keeps the library's contract *)

Module RasterFacts.
Import Raster.

Lemma mem_In x g : mem x g = true <-> In x g.
Proof.
  unfold mem. rewrite existsb_exists. split.
  - intros (y & Hy & Heq). apply Nat.eqb_eq in Heq. now subst.
  - intros H. exists x. split; [assumption | apply Nat.eqb_refl].
Qed.

Lemma mem_false x g : mem x g = false <-> ~ In x g.
Proof.
  rewrite <- mem_In. destruct (mem x g); split; congruence.
Qed.

Lemma dedup_In x g : In x (dedup g) <-> In x g.
Proof.
  induction g as [|y r IH]; simpl; [tauto|].
  destruct (mem y r) eqn:Hm; simpl; rewrite IH.
  - apply mem_In in Hm. split; [tauto|]. intros [->|H]; assumption.
  - tauto.
Qed.

Lemma dedup_NoDup g : NoDup (dedup g).
Proof.
  induction g as [|y r IH]; simpl; [constructor|].
  destruct (mem y r) eqn:Hm; [assumption|].
  constructor; [|assumption].
  rewrite dedup_In. now apply mem_false.
Qed.

Lemma mem_filter f x g :
  mem x (filter f g) = mem x g && f x.
Proof.
  destruct (mem x (filter f g)) eqn:H1.
  - apply mem_In in H1. apply filter_In in H1 as [H1 H2].
    apply mem_In in H1. now rewrite H1, H2.
  - destruct (mem x g) eqn:H2; [|reflexivity].
    destruct (f x) eqn:H3; [|reflexivity].
    apply mem_false in H1. exfalso. apply H1.
    apply filter_In. split; [now apply mem_In | assumption].
Qed.

Lemma dedup_filter f g : dedup (filter f g) = filter f (dedup g).
Proof.
  induction g as [|y r IH]; simpl; [reflexivity|].
  destruct (f y) eqn:Hf; simpl.
  - rewrite mem_filter, Hf, andb_true_r.
    destruct (mem y r); simpl; [assumption|].
    now rewrite Hf, IH.
  - destruct (mem y r); simpl; [assumption|].
    now rewrite Hf.
Qed.

Lemma filter_split_length {A} (f : A -> bool) l :
  List.length l
  = (List.length (filter f l) + List.length (filter (fun x => negb (f x)) l))%nat.
Proof.
  induction l as [|y r IH]; simpl; [reflexivity|].
  destruct (f y); simpl; lia.
Qed.

Lemma count_ext a b : (forall p, In p a <-> In p b) -> count a = count b.
Proof.
  intros H. unfold count. apply Permutation_length.
  apply NoDup_Permutation; try apply dedup_NoDup.
  intros x. rewrite !dedup_In. apply H.
Qed.

Lemma count_split a b : count b = (count (inter a b) + count (diff b a))%nat.
Proof.
  unfold count, inter, diff. rewrite !dedup_filter.
  apply filter_split_length.
Qed.

Lemma laws (cell_m2 : positive) : GeometryLaws (engine cell_m2).
Proof.
  constructor; simpl.
  - intros gs p. rewrite List.in_concat. split.
    + intros (g & Hg & Hp). now exists g.
    + intros (g & Hg & Hp). now exists g.
  - intros a b p. unfold inter. rewrite filter_In, mem_In. tauto.
  - intros a b p. unfold diff. rewrite filter_In, negb_true_iff, mem_false. tauto.
  - intros [|x g]; simpl; split; try congruence; try tauto.
    intros H. exfalso. apply (H x). now left.
  - intros g. unfold Qle. simpl. lia.
  - intros a b H. now rewrite (count_ext a b H).
  - intros a b. rewrite (count_split a b).
    unfold Qeq. simpl. lia.
Qed.

End RasterFacts.

(** ** Computations *)

Lemma bind_ok {A B : Type} (m : M A) (k : A -> M B) l a :
  m = (l, inr a) -> bind m k = (l ++ calls (k a), outcome (k a)).
Proof.
  intros ->. unfold bind, calls, outcome. now destruct (k a).
Qed.

Lemma bind_raise {A B : Type} (m : M A) (k : A -> M B) l e :
  m = (l, inl e) -> bind m k = (l, inl e).
Proof. now intros ->. Qed.

Lemma bind_inr_inv {A B : Type} (m : M A) (k : A -> M B) l b :
  bind m k = (l, inr b) ->
  exists l1 a l2, m = (l1, inr a) /\ k a = (l2, inr b) /\ l = l1 ++ l2.
Proof.
  destruct m as [l1 [e|a]]; simpl; [discriminate|].
  destruct (k a) as [l2 r] eqn:Hk. intros [= <- ->].
  now exists l1, a, l2.
Qed.

Lemma bind_ext {A B : Type} (m : M A) (k k' : A -> M B) :
  (forall a, k a = k' a) -> bind m k = bind m k'.
Proof.
  intros H. destruct m as [l [e|a]]; simpl; [reflexivity|]. now rewrite H.
Qed.

Section Steps.

Context {E : GeometryEngine}.
Variable W : World.

Lemma read_any_vector_eq path :
  _read_any_vector W path = (read_calls W path, inr (validated W path)).
Proof.
  unfold _read_any_vector, read_calls, validated. simpl.
  now destruct (len (keep_notnull (read_file W path)) =? 0)%nat.
Qed.

Lemma validated_crs path : crs (validated W path) = crs (read_file W path).
Proof.
  unfold validated.
  now destruct (len (keep_notnull (read_file W path)) =? 0)%nat.
Qed.

Lemma read_calls_reads path : reads (read_calls W path) = [path].
Proof.
  unfold read_calls.
  now destruct (len (keep_notnull (read_file W path)) =? 0)%nat.
Qed.

Lemma read_calls_no_work path :
  forallb (fun ev => negb (is_geometry_work ev)) (read_calls W path) = true.
Proof.
  unfold read_calls.
  now destruct (len (keep_notnull (read_file W path)) =? 0)%nat.
Qed.

Lemma intersect_with_remaining_eq comp_union master_union :
  let allocated := intersection comp_union master_union in
  intersect_with_remaining comp_union master_union
  = (if is_empty allocated then [EvIntersection]
     else [EvIntersection; EvArea; EvDifference],
     inr (allocated, recorded_area allocated,
          if is_empty allocated then master_union
          else difference master_union allocated)).
Proof.
  unfold intersect_with_remaining, recorded_area. simpl.
  now destruct (is_empty (intersection comp_union master_union)).
Qed.

Lemma loop_body_empty master lnf shp master_union results :
  len (validated W shp) = 0%nat ->
  loop_body W master lnf shp (master_union, results)
  = (read_calls W shp,
     inr (Next, (master_union,
                 results ++ [mkRecord (layer_name_of lnf shp) 0]))).
Proof.
  intros H. unfold loop_body.
  rewrite (bind_ok _ _ _ _ (read_any_vector_eq shp)).
  rewrite H. simpl. now rewrite app_nil_r.
Qed.

Lemma loop_body_raise master lnf shp master_union results lc e :
  len (validated W shp) <> 0%nat ->
  conform_component master shp (validated W shp) = (lc, inl e) ->
  loop_body W master lnf shp (master_union, results)
  = (read_calls W shp ++ lc, inl e).
Proof.
  intros H Hc. unfold loop_body.
  rewrite (bind_ok _ _ _ _ (read_any_vector_eq shp)).
  apply Nat.eqb_neq in H. rewrite H.
  now rewrite (bind_raise _ _ _ _ Hc).
Qed.

Lemma loop_body_allocate master lnf shp master_union results lc comp_union :
  len (validated W shp) <> 0%nat ->
  conform_component master shp (validated W shp) = (lc, inr comp_union) ->
  loop_body W master lnf shp (master_union, results)
  = (read_calls W shp ++ lc ++ allocation_calls comp_union master_union,
     inr (control_after (remaining_after comp_union master_union),
          (remaining_after comp_union master_union,
           results ++ [mkRecord (layer_name_of lnf shp)
                         (recorded_area (intersection comp_union master_union))]))).
Proof.
  intros H Hc. unfold loop_body.
  rewrite (bind_ok _ _ _ _ (read_any_vector_eq shp)).
  apply Nat.eqb_neq in H. rewrite H.
  rewrite (bind_ok _ _ _ _ Hc).
  unfold allocation_calls.
  rewrite (bind_ok _ _ _ _ (intersect_with_remaining_eq comp_union master_union)).
  rewrite intersect_with_remaining_eq. unfold calls, outcome; simpl.
  unfold control_after, remaining_after.
  destruct (is_empty (intersection comp_union master_union)); simpl;
    match goal with |- context [is_empty ?g] => destruct (is_empty g) end;
    simpl; now rewrite ?app_nil_r.
Qed.

End Steps.

(** ** The loop *)

Section Loop.

Context {E : GeometryEngine}.
Variable W : World.
Variable master : GeoDataFrame.
Variable lnf : string.

Lemma loop_body_view shp master_union results :
  body_view W master lnf shp master_union results
    (loop_body W master lnf shp (master_union, results)).
Proof.
  destruct (Nat.eq_dec (len (validated W shp)) 0) as [H0|H0].
  - rewrite (loop_body_empty W _ _ _ _ _ H0). now constructor.
  - destruct (conform_component master shp (validated W shp))
      as [lc [e|cu]] eqn:Hc.
    + rewrite (loop_body_raise W _ _ _ _ _ _ _ H0 Hc). now constructor.
    + rewrite (loop_body_allocate W _ _ _ _ _ _ _ H0 Hc). now constructor.
Qed.

Lemma loop_cons_next shp rest st l st' :
  loop_body W master lnf shp st = (l, inr (Next, st')) ->
  sequential_allocation W master lnf (shp :: rest) st
  = (l ++ calls (sequential_allocation W master lnf rest st'),
     outcome (sequential_allocation W master lnf rest st')).
Proof.
  intros H. simpl. now rewrite (bind_ok _ _ _ _ H).
Qed.

Lemma loop_cons_break shp rest st l st' :
  loop_body W master lnf shp st = (l, inr (Break, st')) ->
  sequential_allocation W master lnf (shp :: rest) st = (l, inr st').
Proof.
  intros H. simpl. rewrite (bind_ok _ _ _ _ H). simpl.
  now rewrite app_nil_r.
Qed.

Lemma loop_cons_raise shp rest st l e :
  loop_body W master lnf shp st = (l, inl e) ->
  sequential_allocation W master lnf (shp :: rest) st = (l, inl e).
Proof.
  intros H. simpl. now rewrite (bind_raise _ _ _ _ H).
Qed.

End Loop.

(** ** Conservation *)

Lemma Qsum_app l1 l2 : Qsum (l1 ++ l2) == Qsum l1 + Qsum l2.
Proof.
  induction l1 as [|x r IH]; simpl; [lra|]. rewrite IH. lra.
Qed.

Lemma total_area_ha_snoc rs r :
  total_area_ha (rs ++ [r]) == total_area_ha rs + area_ha r.
Proof.
  unfold total_area_ha. rewrite map_app, Qsum_app. simpl. lra.
Qed.

Section Conservation.

Context {E : GeometryEngine} {L : GeometryLaws E}.
Variable W : World.

Lemma area_allocated_again comp_union master_union :
  area (intersection (intersection comp_union master_union) master_union)
  == area (intersection comp_union master_union).
Proof.
  apply area_ext. intros p. rewrite !covers_intersection. tauto.
Qed.

(** What an allocation records is what the remaining geometry loses. *)
Lemma allocation_balance comp_union master_union :
  recorded_area (intersection comp_union master_union)
  + area (remaining_after comp_union master_union) / 10000
  == area master_union / 10000.
Proof.
  unfold recorded_area, remaining_after.
  destruct (is_empty (intersection comp_union master_union)); [lra|].
  pose proof (area_split (intersection comp_union master_union) master_union) as Hs.
  rewrite area_allocated_again in Hs. rewrite Hs. field.
Qed.

Lemma loop_body_balance master lnf shp mu rs l c mu' rs' :
  loop_body W master lnf shp (mu, rs) = (l, inr (c, (mu', rs'))) ->
  total_area_ha rs' + area mu' / 10000 == total_area_ha rs + area mu / 10000.
Proof.
  intros H. pose proof (loop_body_view W master lnf shp mu rs) as V.
  rewrite H in V. inversion V; subst.
  - rewrite total_area_ha_snoc. simpl. lra.
  - rewrite total_area_ha_snoc. simpl.
    pose proof (allocation_balance comp_union mu). lra.
Qed.

Lemma loop_balance master lnf shp_paths : forall mu rs l mu' rs',
  sequential_allocation W master lnf shp_paths (mu, rs) = (l, inr (mu', rs')) ->
  total_area_ha rs' + area mu' / 10000 == total_area_ha rs + area mu / 10000.
Proof.
  induction shp_paths as [|shp rest IH]; intros mu rs l mu' rs' H.
  - simpl in H. injection H as _ <- <-. lra.
  - simpl in H. apply bind_inr_inv in H as (l1 & [c [mu1 rs1]] & l2 & Hb & Hk & _).
    apply loop_body_balance in Hb. destruct c.
    + apply IH in Hk. lra.
    + injection Hk as _ <- <-. lra.
Qed.

(** C1. Conservation: whenever the allocation runs to its end, the areas of
    the emitted records add up to the area of the dissolved master (in
    hectares) minus the area of the final remaining geometry, and so to
    at most the area of the master. *)
Theorem conservation root master_path lnf sort_layers l remaining records :
  run_allocation W root master_path lnf sort_layers = (l, inr (remaining, records)) ->
  exists lm master master_union,
    read_master W master_path = (lm, inr (master, master_union))
    /\ total_area_ha records == (area master_union - area remaining) / 10000
    /\ total_area_ha records <= area master_union / 10000.
Proof.
  intros H. unfold run_allocation in H.
  apply bind_inr_inv in H as (lm & [master mu] & l2 & Hm & H & _).
  apply bind_inr_inv in H as (lf & paths & l3 & _ & H & _).
  apply loop_balance in H. unfold total_area_ha at 2 in H. simpl in H.
  exists lm, master, mu. split; [assumption|].
  pose proof (area_nonneg remaining).
  split.
  - setoid_replace ((area mu - area remaining) / 10000)
      with (area mu / 10000 - area remaining / 10000) by field. lra.
  - assert (0 <= area remaining / 10000) by (apply Qle_shift_div_l; lra). lra.
Qed.

End Conservation.

Lemma conservation_witness :
  exists l remaining records,
    run_allocation Examples.ab_world "data" "master.shp" "parent_folder" true
    = (l, inr (remaining, records))
    /\ exists lm master master_union,
        read_master Examples.ab_world "master.shp" = (lm, inr (master, master_union))
        /\ total_area_ha records
           == (@area Examples.E10 master_union - @area Examples.E10 remaining) / 10000
        /\ total_area_ha records <= @area Examples.E10 master_union / 10000.
Proof.
  eexists _, _, _. split; [vm_compute; reflexivity|].
  eapply (@conservation Examples.E10 (RasterFacts.laws _) Examples.ab_world
            "data" "master.shp" "parent_folder" true).
  vm_compute. reflexivity.
Defined.

(** ** One iteration *)

(** C2. Per-step postcondition: for a non-empty component whose dissolved
    geometry in the master's frame is [comp_union], the iteration allocates
    [intersection comp_union master_union]; if that is empty it records
    exactly 0 and keeps the remaining geometry, otherwise it records the
    area of the allocated geometry divided by 10000 and the remaining
    geometry becomes [difference master_union allocated]. *)
Theorem per_step_allocation {E : GeometryEngine} (W : World) master lnf shp
    master_union results lc comp_union :
  len (validated W shp) <> 0%nat ->
  conform_component master shp (validated W shp) = (lc, inr comp_union) ->
  let allocated := intersection comp_union master_union in
  exists l c allocated_area_ha master_union',
    loop_body W master lnf shp (master_union, results)
    = (l, inr (c, (master_union',
                   results ++ [mkRecord (layer_name_of lnf shp) allocated_area_ha])))
    /\ outcome (intersect_with_remaining comp_union master_union)
       = inr (allocated, allocated_area_ha, master_union')
    /\ (is_empty allocated = true ->
        allocated_area_ha = 0 /\ master_union' = master_union)
    /\ (is_empty allocated = false ->
        allocated_area_ha = area allocated / 10000
        /\ master_union' = difference master_union allocated).
Proof.
  intros H0 Hc allocated.
  exists (read_calls W shp ++ lc ++ allocation_calls comp_union master_union),
         (control_after (remaining_after comp_union master_union)),
         (recorded_area allocated),
         (remaining_after comp_union master_union).
  split; [now apply loop_body_allocate|].
  split; [now rewrite intersect_with_remaining_eq|].
  unfold recorded_area, remaining_after. fold allocated.
  split; intros ->; now split.
Qed.

Lemma per_step_allocation_witness :
  exists l c allocated_area_ha master_union',
    loop_body Examples.ab_world Examples.master10 "parent_folder" "data/B/b.shp"
              (Raster.strip 0 10, [])
    = (l, inr (c, (master_union', [mkRecord "B" allocated_area_ha])))
    /\ allocated_area_ha = 700000 # 10000
    /\ master_union' = Raster.strip 0 3.
Proof.
  destruct (@per_step_allocation Examples.E10 Examples.ab_world Examples.master10
              "parent_folder" "data/B/b.shp" (Raster.strip 0 10) []
              [EvUnionAll] (Raster.strip 3 7))
    as (l & c & a & mu' & Hb & _ & _ & Hne).
  - vm_compute. discriminate.
  - vm_compute. reflexivity.
  - exists l, c, a, mu'. split; [exact Hb|].
    destruct Hne as [-> ->]; [vm_compute; reflexivity|].
    split; vm_compute; reflexivity.
Defined.

(** C5. Empty component: a file whose loaded-and-validated geometry set is
    empty gets a record of exactly 0 at once; the remaining geometry is
    unchanged, the iteration makes no reprojection, union, intersection or
    difference, and the loop goes on with the next file. *)
Theorem empty_component {E : GeometryEngine} (W : World) master lnf shp rest
    master_union results :
  len (validated W shp) = 0%nat ->
  let st' := (master_union, results ++ [mkRecord (layer_name_of lnf shp) 0]) in
  outcome (loop_body W master lnf shp (master_union, results)) = inr (Next, st')
  /\ forallb (fun ev => negb (is_geometry_work ev))
             (calls (loop_body W master lnf shp (master_union, results))) = true
  /\ sequential_allocation W master lnf (shp :: rest) (master_union, results)
     = (read_calls W shp ++ calls (sequential_allocation W master lnf rest st'),
        outcome (sequential_allocation W master lnf rest st')).
Proof.
  intros H0 st'.
  pose proof (loop_body_empty W master lnf shp master_union results H0) as Hb.
  rewrite Hb. split; [reflexivity|]. split.
  - apply read_calls_no_work.
  - now apply loop_cons_next.
Qed.

Lemma empty_component_witness :
  crs (read_file Examples.hollow_world "data/A/a.shp") = None
  /\ sequential_allocation Examples.hollow_world Examples.master10 "parent_folder"
       ["data/A/a.shp"; "data/B/b.shp"] (Raster.strip 0 10, [])
     = ([EvRead "data/A/a.shp"; EvRead "data/B/b.shp"; EvMakeValid; EvUnionAll;
         EvIntersection; EvArea; EvDifference],
        inr (Raster.strip 0 3, [mkRecord "A" 0; mkRecord "B" (700000 # 10000)])).
Proof.
  split; [reflexivity|].
  assert (H0 : len (validated Examples.hollow_world "data/A/a.shp") = 0%nat)
    by (vm_compute; reflexivity).
  destruct (@empty_component Examples.E10 Examples.hollow_world Examples.master10
              "parent_folder" "data/A/a.shp" ["data/B/b.shp"]
              (Raster.strip 0 10) [] H0)
    as (_ & _ & H).
  etransitivity; [exact H|]. vm_compute. reflexivity.
Defined.

(** ** Order sensitivity *)

Section Order.

Context {E : GeometryEngine} {L : GeometryLaws E}.
Variable W : World.

Lemma area_of_nothing g : (forall p, ~ covers g p) -> area g == 0.
Proof.
  intros Hg.
  pose proof (area_split g g) as Hs.
  assert (H1 : area (intersection g g) == area g).
  { apply area_ext. intros p. rewrite covers_intersection. tauto. }
  assert (H2 : area (difference g g) == area g).
  { apply area_ext. intros p. rewrite covers_difference.
    split; [tauto|]. intros Hp. now apply Hg in Hp. }
  lra.
Qed.

Lemma contested_not_remaining a b mu p :
  overlap_within a b mu -> covers a p -> covers b p ->
  ~ covers (remaining_after a mu) p.
Proof.
  intros Hw Ha Hb. unfold remaining_after.
  assert (Hg : covers (intersection a mu) p).
  { apply covers_intersection. split; [assumption | now apply Hw]. }
  destruct (is_empty (intersection a mu)) eqn:Hem.
  - intros _. now apply (proj1 (is_empty_covers _) Hem p).
  - rewrite covers_difference. tauto.
Qed.

Lemma first_wins master lnf mu first second l1 l2 a b :
  len (validated W first) <> 0%nat ->
  len (validated W second) <> 0%nat ->
  conform_component master first (validated W first) = (l1, inr a) ->
  conform_component master second (validated W second) = (l2, inr b) ->
  overlap_within a b mu ->
  contested_goes_to_first W master lnf mu first second a b.
Proof.
  intros N1 N2 C1 C2 Hw. unfold contested_goes_to_first.
  pose proof (loop_body_allocate W master lnf first mu [] l1 a N1 C1) as B1.
  simpl app in B1.
  assert (Hgeo : forall p, covers a p -> covers b p ->
            covers (intersection a mu) p
            /\ ~ covers (intersection b (remaining_after a mu)) p).
  { intros p Ha Hb. split.
    - apply covers_intersection. split; [assumption | now apply Hw].
    - rewrite covers_intersection. intros [_ Hr].
      now apply (contested_not_remaining a b mu p). }
  assert (Ha1 : area (intersection (intersection a mu) (intersection a b))
                == area (intersection a b)).
  { apply area_ext. intros p. rewrite !covers_intersection.
    split; [tauto|]. intros [Ha Hb]. repeat split; try assumption.
    now apply Hw. }
  assert (Ha2 : area (intersection (intersection b (remaining_after a mu))
                                   (intersection a b)) == 0).
  { apply area_of_nothing. intros p. rewrite !covers_intersection.
    intros [[_ Hr] [Ha Hb]]. now apply (contested_not_remaining a b mu p). }
  destruct (control_after (remaining_after a mu)) eqn:Hctl.
  - pose proof (loop_body_allocate W master lnf second (remaining_after a mu)
                  [mkRecord (layer_name_of lnf first)
                     (recorded_area (intersection a mu))] l2 b N2 C2) as B2.
    simpl app in B2.
    rewrite (loop_cons_next W _ _ _ _ _ _ _ B1).
    destruct (control_after (remaining_after b (remaining_after a mu)));
      [ rewrite (loop_cons_next W _ _ _ _ _ _ _ B2)
      | rewrite (loop_cons_break W _ _ _ _ _ _ _ B2) ];
      (eexists _, _, _; split; [reflexivity|];
       split; [right; reflexivity | split; [exact Hgeo | now split]]).
  - rewrite (loop_cons_break W _ _ _ _ _ _ _ B1).
    eexists _, _, _. split; [reflexivity|].
    split; [left; reflexivity | split; [exact Hgeo | now split]].
Qed.

(** C3. First in order wins: two non-empty components whose contested
    ground lies within the master.  Processed as [A, B], the record of A
    is for a geometry covering all of the contested ground and the record
    of B, if any, for one covering none of it; processed as [B, A], the
    roles are exchanged. *)
Theorem first_in_order_wins master lnf mu pA pB lA lB a b :
  len (validated W pA) <> 0%nat ->
  len (validated W pB) <> 0%nat ->
  conform_component master pA (validated W pA) = (lA, inr a) ->
  conform_component master pB (validated W pB) = (lB, inr b) ->
  overlap_within a b mu ->
  contested_goes_to_first W master lnf mu pA pB a b
  /\ contested_goes_to_first W master lnf mu pB pA b a.
Proof.
  intros NA NB CA CB Hw. split.
  - now apply (first_wins master lnf mu pA pB lA lB).
  - apply (first_wins master lnf mu pB pA lB lA); try assumption.
    intros p Hb Ha. now apply Hw.
Qed.

End Order.

Lemma first_in_order_wins_witness :
  contested_goes_to_first Examples.ab_world Examples.master10 "parent_folder"
    (Raster.strip 0 10) "data/A/a.shp" "data/B/b.shp"
    (Raster.strip 0 6) (Raster.strip 3 7)
  /\ contested_goes_to_first Examples.ab_world Examples.master10 "parent_folder"
       (Raster.strip 0 10) "data/B/b.shp" "data/A/a.shp"
       (Raster.strip 3 7) (Raster.strip 0 6).
Proof.
  apply (@first_in_order_wins Examples.E10 (RasterFacts.laws _) Examples.ab_world
           Examples.master10 "parent_folder" (Raster.strip 0 10)
           "data/A/a.shp" "data/B/b.shp" [EvUnionAll] [EvUnionAll]).
  - vm_compute. discriminate.
  - vm_compute. discriminate.
  - vm_compute. reflexivity.
  - vm_compute. reflexivity.
  - intros p Ha _. apply in_seq in Ha. apply in_seq. lia.
Defined.

(** ** Reference systems and errors *)

Lemma reads_app l1 l2 : reads (l1 ++ l2) = reads l1 ++ reads l2.
Proof. apply flat_map_app. Qed.

Lemma In_reads p l : In (EvRead p) l <-> In p (reads l).
Proof.
  unfold reads. rewrite in_flat_map. split.
  - intros H. exists (EvRead p). split; [assumption | now left].
  - intros (ev & Hev & Hp). destruct ev; simpl in Hp; try contradiction.
    destruct Hp as [->|[]]. assumption.
Qed.

Section Crs.

Context {E : GeometryEngine}.
Variable W : World.

Lemma to_crs_ok gdf src dst :
  crs gdf = Some src ->
  to_crs gdf (Some dst)
  = ([EvToCrs dst],
     inr (mkGDF (map (option_map (reproject src dst)) (geometry gdf)) (Some dst))).
Proof. unfold to_crs. now intros ->. Qed.

(** A layer in a projected system passes through unchanged. *)
Lemma ensure_projected_unchanged gdf c :
  crs gdf = Some c -> is_geographic c = false ->
  _ensure_projected_equal_area gdf = ([], inr gdf).
Proof. unfold _ensure_projected_equal_area. now intros -> ->. Qed.

Lemma ensure_geographic gdf c :
  crs gdf = Some c -> is_geographic c = true ->
  _ensure_projected_equal_area gdf = to_crs gdf (Some EPSG_5551).
Proof. unfold _ensure_projected_equal_area. now intros -> ->. Qed.

Lemma ensure_ok gdf c :
  crs gdf = Some c ->
  exists l gdf',
    _ensure_projected_equal_area gdf = (l, inr gdf')
    /\ reads l = []
    /\ len gdf' = len gdf
    /\ exists c', crs gdf' = Some c' /\ is_geographic c' = false.
Proof.
  intros Hc. destruct (is_geographic c) eqn:Hg.
  - rewrite (ensure_geographic gdf c Hc Hg), (to_crs_ok gdf c _ Hc).
    eexists _, _. split; [reflexivity|]. split; [reflexivity|]. split.
    + unfold len. simpl. apply length_map.
    + now exists EPSG_5551.
  - rewrite (ensure_projected_unchanged gdf c Hc Hg).
    eexists _, _. split; [reflexivity|]. split; [reflexivity|].
    split; [reflexivity|]. now exists c.
Qed.

Lemma ensure_no_crs gdf :
  crs gdf = None -> _ensure_projected_equal_area gdf = ([], inl ValueError_NoCRS).
Proof. unfold _ensure_projected_equal_area. now intros ->. Qed.

(** *** Reading the master *)

Lemma read_master_empty master_path :
  len (validated W master_path) = 0%nat ->
  read_master W master_path = (read_calls W master_path, inl ValueError_MasterEmpty).
Proof.
  intros H. unfold read_master.
  rewrite (bind_ok _ _ _ _ (read_any_vector_eq W master_path)), H.
  simpl. now rewrite app_nil_r.
Qed.

Lemma read_master_no_crs master_path :
  len (validated W master_path) <> 0%nat ->
  crs (read_file W master_path) = None ->
  read_master W master_path = (read_calls W master_path, inl ValueError_NoCRS).
Proof.
  intros H Hc. unfold read_master.
  rewrite (bind_ok _ _ _ _ (read_any_vector_eq W master_path)).
  apply Nat.eqb_neq in H. rewrite H.
  rewrite <- validated_crs in Hc.
  rewrite (bind_raise _ _ _ _ (ensure_no_crs _ Hc)).
  simpl. now rewrite app_nil_r.
Qed.

Lemma read_master_ok master_path c :
  len (validated W master_path) <> 0%nat ->
  crs (read_file W master_path) = Some c ->
  exists lm master master_union,
    read_master W master_path = (lm, inr (master, master_union)).
Proof.
  intros H Hc. unfold read_master.
  rewrite (bind_ok _ _ _ _ (read_any_vector_eq W master_path)).
  apply Nat.eqb_neq in H. rewrite H.
  rewrite <- validated_crs in Hc.
  destruct (ensure_ok _ _ Hc) as (l & m & He & _).
  rewrite (bind_ok _ _ _ _ He). simpl. now eexists _, _, _.
Qed.

Lemma read_master_cases master_path :
  (len (validated W master_path) = 0%nat
   /\ read_master W master_path
      = (read_calls W master_path, inl ValueError_MasterEmpty))
  \/ (len (validated W master_path) <> 0%nat
      /\ crs (read_file W master_path) = None
      /\ read_master W master_path
         = (read_calls W master_path, inl ValueError_NoCRS))
  \/ (len (validated W master_path) <> 0%nat
      /\ crs (read_file W master_path) <> None
      /\ exists lm master master_union,
           read_master W master_path = (lm, inr (master, master_union))).
Proof.
  destruct (Nat.eq_dec (len (validated W master_path)) 0) as [H0|H0].
  - left. split; [assumption | now apply read_master_empty].
  - right. destruct (crs (read_file W master_path)) as [c|] eqn:Hc.
    + right. split; [assumption|]. split; [discriminate|].
      now apply (read_master_ok master_path c).
    + left. split; [assumption|]. split; [reflexivity|].
      now apply read_master_no_crs.
Qed.

(** *** Conforming a component *)

Lemma conform_no_crs master shp comp :
  crs comp = None ->
  conform_component master shp comp = ([], inl (ValueError_ComponentNoCRS shp)).
Proof. unfold conform_component. now intros ->. Qed.

Lemma conform_with_crs master shp comp c lc r :
  crs comp = Some c ->
  conform_component master shp comp = (lc, r) ->
  reads lc = []
  /\ forall e, r = inl e -> is_missing_crs e = false.
Proof.
  intros Hc. unfold conform_component. rewrite Hc.
  destruct (crs_ne (Some c) (crs master)).
  - destruct (crs master) as [mc|] eqn:Hm.
    + rewrite (bind_ok _ _ _ _ (to_crs_ok comp c mc Hc)).
      match goal with |- context [_ensure_projected_equal_area ?g] =>
        destruct (ensure_ok g mc eq_refl) as (l & g' & He & Hr & _) end.
      rewrite (bind_ok _ _ _ _ He). simpl.
      intros [= <- <-].
      change (EvToCrs mc :: l ++ [EvUnionAll])
        with ([EvToCrs mc] ++ l ++ [EvUnionAll]).
      rewrite !reads_app, Hr. split; [reflexivity|].
      intros e [=].
    + unfold to_crs. rewrite Hc. simpl. intros [= <- <-].
      split; [reflexivity|]. now intros e [= <-].
  - simpl. destruct (ensure_ok comp c Hc) as (l & g' & He & Hr & _).
    rewrite He. simpl. intros [= <- <-]. rewrite !reads_app, Hr.
    split; [reflexivity|]. intros e [=].
Qed.

Lemma conform_reads master shp comp lc r :
  conform_component master shp comp = (lc, r) -> reads lc = [].
Proof.
  destruct (crs comp) as [c|] eqn:Hc.
  - intros H. now apply (conform_with_crs master shp comp c lc r Hc).
  - rewrite (conform_no_crs master shp comp Hc). now intros [= <- _].
Qed.

Lemma allocation_calls_reads comp_union master_union :
  reads (allocation_calls comp_union master_union) = [].
Proof.
  unfold allocation_calls. rewrite intersect_with_remaining_eq.
  unfold calls. simpl.
  now destruct (is_empty (intersection comp_union master_union)).
Qed.

(** Every iteration reads its own file and no other. *)
Lemma loop_body_reads master lnf shp master_union results :
  reads (calls (loop_body W master lnf shp (master_union, results))) = [shp].
Proof.
  destruct (loop_body_view W master lnf shp master_union results)
    as [Hz | lc e Hn Hc | lc cu Hn Hc];
    unfold calls; cbn [fst]; rewrite ?reads_app, read_calls_reads.
  - reflexivity.
  - now rewrite (conform_reads _ _ _ _ _ Hc).
  - now rewrite (conform_reads _ _ _ _ _ Hc), allocation_calls_reads.
Qed.

End Crs.

(** The files the loop reads, in order, are an initial segment of the list
    it is given. *)
Lemma loop_reads_prefix {E : GeometryEngine} (W : World) master lnf shp_paths :
  forall st, exists unvisited,
    shp_paths
    = reads (calls (sequential_allocation W master lnf shp_paths st)) ++ unvisited.
Proof.
  induction shp_paths as [|p rest IH]; intros [mu rs].
  - now exists [].
  - pose proof (loop_body_reads W master lnf p mu rs) as Hr.
    destruct (loop_body W master lnf p (mu, rs)) as [lb [e|[[|] st']]] eqn:Hb;
      unfold calls in Hr; cbn [fst] in Hr.
    + rewrite (loop_cons_raise W _ _ _ rest _ _ _ Hb).
      exists rest. unfold calls. cbn [fst]. now rewrite Hr.
    + rewrite (loop_cons_next W _ _ _ rest _ _ _ Hb).
      destruct (IH st') as [u Hu]. exists u.
      unfold calls at 1. cbn [fst]. rewrite reads_app, Hr. simpl.
      now rewrite <- Hu.
    + rewrite (loop_cons_break W _ _ _ rest _ _ _ Hb).
      exists rest. unfold calls. cbn [fst]. now rewrite Hr.
Qed.

(** ** Early termination *)

Lemma loop_stops_when_exhausted {E : GeometryEngine} (W : World) master lnf
    pre shp post :
  forall master_union results l remaining records,
  len (validated W shp) <> 0%nat ->
  sequential_allocation W master lnf (pre ++ [shp]) (master_union, results)
  = (l, inr (remaining, records)) ->
  is_empty remaining = true ->
  sequential_allocation W master lnf (pre ++ shp :: post) (master_union, results)
  = (l, inr (remaining, records)).
Proof.
  induction pre as [|p pre IH]; intros mu rs l rem recs H0 H Hem.
  - simpl app in *.
    pose proof (loop_body_view W master lnf shp mu rs) as V.
    remember (loop_body W master lnf shp (mu, rs)) as b eqn:Hb.
    destruct V as [Hz | lc e _ Hc | lc cu _ Hc]; symmetry in Hb.
    + contradiction.
    + rewrite (loop_cons_raise W _ _ _ _ _ _ _ Hb) in H. discriminate.
    + assert (Hrem : remaining_after cu mu = rem
                     /\ rs ++ [mkRecord (layer_name_of lnf shp)
                                 (recorded_area (intersection cu mu))] = recs).
      { destruct (control_after (remaining_after cu mu)).
        - rewrite (loop_cons_next W _ _ _ _ _ _ _ Hb) in H. simpl in H.
          now injection H as _ <- <-.
        - rewrite (loop_cons_break W _ _ _ _ _ _ _ Hb) in H.
          now injection H as _ <- <-. }
      destruct Hrem as [Hr1 Hr2].
      assert (Hc' : control_after (remaining_after cu mu) = Break).
      { unfold control_after. now rewrite Hr1, Hem. }
      rewrite Hc' in Hb.
      rewrite (loop_cons_break W _ _ _ [] _ _ _ Hb) in H.
      now rewrite (loop_cons_break W _ _ _ post _ _ _ Hb).
  - simpl app in *.
    destruct (loop_body W master lnf p (mu, rs)) as [lb [e|[[|] [mu1 rs1]]]] eqn:Hb.
    + rewrite (loop_cons_raise W _ _ _ _ _ _ _ Hb) in H. discriminate.
    + rewrite (loop_cons_next W _ _ _ _ _ _ _ Hb) in H.
      rewrite (loop_cons_next W _ _ _ _ _ _ _ Hb).
      destruct (sequential_allocation W master lnf (pre ++ [shp]) (mu1, rs1))
        as [l' o'] eqn:Hr.
      unfold calls, outcome in H. simpl in H. injection H as <- ->.
      now rewrite (IH _ _ _ _ _ H0 Hr Hem).
    + rewrite (loop_cons_break W _ _ _ _ _ _ _ Hb) in H.
      now rewrite (loop_cons_break W _ _ _ _ _ _ _ Hb).
Qed.

(** C4. Early termination: if the run over the files up to and including a
    non-empty component ends with an empty remaining geometry, then the run
    over any longer list is that very run: the same records and the same
    library calls, and the files read are among those up to that component.
    The files after it are neither read nor recorded. *)
Theorem early_termination {E : GeometryEngine} (W : World) master lnf
    pre shp post master_union results l remaining records :
  len (validated W shp) <> 0%nat ->
  sequential_allocation W master lnf (pre ++ [shp]) (master_union, results)
  = (l, inr (remaining, records)) ->
  is_empty remaining = true ->
  sequential_allocation W master lnf (pre ++ shp :: post) (master_union, results)
  = (l, inr (remaining, records))
  /\ exists unread, pre ++ [shp] = reads l ++ unread.
Proof.
  intros H0 H Hem. split.
  - now apply loop_stops_when_exhausted.
  - destruct (loop_reads_prefix W master lnf (pre ++ [shp]) (master_union, results))
      as [u Hu].
    rewrite H in Hu. now exists u.
Qed.

Lemma early_termination_witness :
  sequential_allocation Examples.full_world Examples.master10 "parent_folder"
    ["data/A/a.shp"; "data/B/b.shp"] (Raster.strip 0 10, [])
  = ([EvRead "data/A/a.shp"; EvMakeValid; EvUnionAll;
      EvIntersection; EvArea; EvDifference],
     inr ([], [mkRecord "A" (1000000 # 10000)])).
Proof.
  apply (@early_termination Examples.E10 Examples.full_world Examples.master10
           "parent_folder" [] "data/A/a.shp" ["data/B/b.shp"]).
  - vm_compute. discriminate.
  - vm_compute. reflexivity.
  - reflexivity.
Defined.


Section MissingCrs.

Context {E : GeometryEngine}.
Variable W : World.

Lemma In_body_calls master lnf p st shp :
  In (EvRead shp) (calls (loop_body W master lnf p st)) -> shp = p.
Proof.
  destruct st as [mu rs]. rewrite In_reads, loop_body_reads.
  now intros [->|[]].
Qed.

Lemma loop_aborts_iff master lnf shp_paths : forall st,
  aborts_missing_crs (sequential_allocation W master lnf shp_paths st)
  <-> exists shp,
        lacks_crs_in W (calls (sequential_allocation W master lnf shp_paths st)) shp.
Proof.
  induction shp_paths as [|p rest IH]; intros [mu rs].
  - simpl. split.
    + intros (e & He & _). discriminate.
    + intros (shp & [] & _).
  - pose proof (In_body_calls master lnf p (mu, rs)) as Hin.
    pose proof (loop_body_view W master lnf p mu rs) as V.
    remember (loop_body W master lnf p (mu, rs)) as b eqn:Hb.
    destruct V as [Hz | lc e Hn Hc | lc cu Hn Hc]; symmetry in Hb.
    + (* an empty component: [continue] *)
      rewrite (loop_cons_next W _ _ _ rest _ _ _ Hb).
      unfold aborts_missing_crs at 1. unfold outcome at 1. cbn [snd].
      fold (aborts_missing_crs
              (sequential_allocation W master lnf rest
                 (mu, rs ++ [mkRecord (layer_name_of lnf p) 0]))).
      rewrite IH. unfold calls at 2. cbn [fst]. split.
      * intros (shp & Hi & Hrest). exists shp. split; [|assumption].
        apply in_or_app. now right.
      * intros (shp & Hi & Hl & Hcrs). exists shp.
        apply in_app_or in Hi as [Hi|Hi].
        -- apply Hin in Hi. subst. contradiction.
        -- now split.
    + (* the component cannot be conformed *)
      rewrite (loop_cons_raise W _ _ _ rest _ _ _ Hb).
      unfold aborts_missing_crs, outcome, calls. cbn [fst snd]. split.
      * intros (e' & [= <-] & Hm). exists p.
        destruct (crs (validated W p)) as [c|] eqn:Hcrs.
        -- destruct (conform_with_crs master p _ c lc _ Hcrs Hc) as [_ Hf].
           rewrite (Hf e eq_refl) in Hm. discriminate.
        -- split; [|split; [assumption | now rewrite <- validated_crs]].
           apply in_or_app. left. apply In_reads.
           rewrite read_calls_reads. now left.
      * intros (shp & Hi & Hl & Hcrs). apply Hin in Hi. subst shp.
        rewrite <- validated_crs in Hcrs.
        rewrite (conform_no_crs master p _ Hcrs) in Hc.
        injection Hc as _ <-. now eexists.
    + (* the component is allocated *)
      assert (Hsome : crs (read_file W p) <> None).
      { intros Hcrs. rewrite <- validated_crs in Hcrs.
        rewrite (conform_no_crs master p _ Hcrs) in Hc. discriminate. }
      destruct (control_after (remaining_after cu mu)).
      * rewrite (loop_cons_next W _ _ _ rest _ _ _ Hb).
        unfold aborts_missing_crs at 1. unfold outcome at 1. cbn [snd].
        match goal with |- context [sequential_allocation W master lnf rest ?s] =>
          fold (aborts_missing_crs (sequential_allocation W master lnf rest s));
          rewrite (IH s) end.
        unfold calls at 2. cbn [fst]. split.
        -- intros (shp & Hi & Hrest). exists shp. split; [|assumption].
           apply in_or_app. now right.
        -- intros (shp & Hi & Hl & Hcrs). exists shp.
           apply in_app_or in Hi as [Hi|Hi].
           ++ apply Hin in Hi. subst. contradiction.
           ++ now split.
      * rewrite (loop_cons_break W _ _ _ rest _ _ _ Hb).
        unfold aborts_missing_crs, outcome, calls. cbn [fst snd]. split.
        -- intros (e' & [=] & _).
        -- intros (shp & Hi & Hl & Hcrs). apply Hin in Hi. subst.
           contradiction.
Qed.

(** *** The whole run, once the master is read *)

Lemma aggregate_calls results : calls (aggregate results) = [].
Proof. now destruct results. Qed.

Lemma aggregate_not_missing results :
  ~ aborts_missing_crs (aggregate results).
Proof.
  destruct results; intros (e & He & Hm).
  - injection He as <-. discriminate.
  - discriminate.
Qed.

Lemma find_components_eq root sort_layers :
  find_components W root sort_layers
  = ([EvRglob root], inr (component_paths W root sort_layers)).
Proof. reflexivity. Qed.

Lemma allocate_master_raise root master_path lnf sort_layers lm e :
  read_master W master_path = (lm, inl e) ->
  allocate_non_overlapping_areas W root master_path lnf sort_layers = (lm, inl e).
Proof.
  intros H. unfold allocate_non_overlapping_areas, run_allocation.
  now rewrite (bind_raise _ _ _ _ H).
Qed.

Lemma allocate_master_ok root master_path lnf sort_layers lm master mu :
  read_master W master_path = (lm, inr (master, mu)) ->
  let loop := sequential_allocation W master lnf
                (component_paths W root sort_layers) (mu, []) in
  allocate_non_overlapping_areas W root master_path lnf sort_layers
  = (lm ++ EvRglob root :: calls loop,
     match outcome loop with
     | inl e => inl e
     | inr (_, results) => outcome (aggregate results)
     end).
Proof.
  intros H loop. unfold allocate_non_overlapping_areas, run_allocation.
  rewrite (bind_ok _ _ _ _ H), (bind_ok _ _ _ _ (find_components_eq _ _)).
  fold loop. destruct loop as [ll [e|[rem results]]]; unfold calls, outcome; simpl.
  - reflexivity.
  - pose proof (aggregate_calls results) as Ha.
    destruct (aggregate results) as [la ra]. unfold calls in Ha. simpl in Ha.
    subst la. simpl. now rewrite !app_nil_r.
Qed.

End MissingCrs.

(** C6, as the run behaves.  The run aborts for want of a reference system
    exactly when the master has features and declares no reference system,
    or some visited component has features and declares none.  In the
    first case the error is raised when only the master file has been
    read. *)
Theorem missing_crs_iff {E : GeometryEngine} (W : World)
    (root master_path lnf : string) (sort_layers : bool) :
  (aborts_missing_crs
     (allocate_non_overlapping_areas W root master_path lnf sort_layers)
   <-> ((len (validated W master_path) <> 0%nat
         /\ crs (read_file W master_path) = None)
        \/ some_component_lacks_crs W root master_path lnf sort_layers))
  /\ (len (validated W master_path) <> 0%nat ->
      crs (read_file W master_path) = None ->
      allocate_non_overlapping_areas W root master_path lnf sort_layers
      = (read_calls W master_path, inl ValueError_NoCRS)).
Proof.
  split.
  - destruct (read_master_cases W master_path)
      as [[H0 Hm] | [(Hn & Hc & Hm) | (Hn & Hc & lm & master & mu & Hm)]].
    + rewrite (allocate_master_raise W root _ lnf sort_layers _ _ Hm). split.
      * intros (e & [= <-] & He). discriminate.
      * intros [[Hn _] | (shp & (lm & m & mu & Hm' & _) & _)].
        -- contradiction.
        -- rewrite Hm in Hm'. discriminate.
    + rewrite (allocate_master_raise W root _ lnf sort_layers _ _ Hm). split.
      * intros _. left. now split.
      * intros _. now exists ValueError_NoCRS.
    + rewrite (allocate_master_ok W root _ lnf sort_layers _ _ _ Hm).
      pose proof (loop_aborts_iff W master lnf
                    (component_paths W root sort_layers) (mu, [])) as Hl.
      split.
      * intros (e & He & Hmiss). right.
        assert (Hab : aborts_missing_crs
                  (sequential_allocation W master lnf
                     (component_paths W root sort_layers) (mu, []))).
        { unfold outcome at 1 in He. cbn [snd] in He.
          destruct (outcome (sequential_allocation W master lnf
                               (component_paths W root sort_layers) (mu, [])))
            as [e'|[rem results]] eqn:Ho.
          - injection He as ->. now exists e.
          - exfalso. apply (aggregate_not_missing results). now exists e. }
        apply Hl in Hab as (shp & Hi & Hlen & Hcrs).
        exists shp. split; [|now split]. now exists lm, master, mu.
      * intros [[_ Hnone] | (shp & (lm' & m' & mu' & Hm' & Hv) & Hlen & Hcrs)].
        -- contradiction.
        -- rewrite Hm in Hm'. injection Hm' as <- <- <-.
           destruct (proj2 Hl) as (e & He & Hmiss).
           { exists shp. now split. }
           exists e. split; [|assumption].
           unfold outcome at 1. cbn [snd]. now rewrite He.
  - intros Hn Hc.
    apply allocate_master_raise. now apply read_master_no_crs.
Qed.

Lemma missing_crs_iff_witness :
  aborts_missing_crs
    (allocate_non_overlapping_areas Examples.naive_world
       "data" "master.shp" "parent_folder" true).
Proof.
  apply (proj1 (@missing_crs_iff Examples.E10 Examples.naive_world
                  "data" "master.shp" "parent_folder" true)).
  right. exists "data/A/a.shp". split; [|split].
  - eexists _, _, _. split; [vm_compute; reflexivity|].
    vm_compute. now left.
  - vm_compute. discriminate.
  - reflexivity.
Defined.

(** C6, as stated, fails: a master file without features and without a
    reference system aborts the run with the empty-master error. *)
Lemma missing_crs_iff_as_stated_fails :
  crs (read_file Examples.void_world "master.shp") = None
  /\ outcome (allocate_non_overlapping_areas Examples.void_world
                "data" "master.shp" "parent_folder" true)
     = inl ValueError_MasterEmpty
  /\ ~ missing_crs_iff_master_or_component Examples.void_world
         "data" "master.shp" "parent_folder" true.
Proof.
  split; [reflexivity|]. split; [reflexivity|].
  intros [_ H]. destruct H as (e & He & Hm).
  - left. reflexivity.
  - vm_compute in He. injection He as <-. discriminate.
Qed.

(** C10. The master's emptiness is checked before its reference system: a
    master without features aborts the run with the empty-master error
    when only the master file has been read, whatever it declares; and if
    reading the master raises a missing-reference-system error, the
    master has features. *)
Theorem empty_master_first {E : GeometryEngine} (W : World)
    (root master_path lnf : string) (sort_layers : bool) :
  (len (validated W master_path) = 0%nat ->
   allocate_non_overlapping_areas W root master_path lnf sort_layers
   = (read_calls W master_path, inl ValueError_MasterEmpty))
  /\ (forall e, outcome (read_master W master_path) = inl e ->
                is_missing_crs e = true ->
                len (validated W master_path) <> 0%nat
                /\ crs (read_file W master_path) = None).
Proof.
  split.
  - intros H0. apply allocate_master_raise. now apply read_master_empty.
  - intros e He Hmiss.
    destruct (read_master_cases W master_path)
      as [[H0 Hm] | [(Hn & Hc & Hm) | (Hn & Hc & lm & master & mu & Hm)]];
      rewrite Hm in He; unfold outcome in He; cbn [snd] in He.
    + injection He as <-. discriminate.
    + now split.
    + discriminate.
Qed.

Lemma empty_master_first_witness :
  crs (read_file Examples.void_world "master.shp") = None
  /\ allocate_non_overlapping_areas Examples.void_world
       "data" "master.shp" "parent_folder" true
     = ([EvRead "master.shp"], inl ValueError_MasterEmpty).
Proof.
  split; [reflexivity|].
  apply (proj1 (@empty_master_first Examples.E10 Examples.void_world
                  "data" "master.shp" "parent_folder" true)).
  vm_compute. reflexivity.
Defined.

(** C7, on the code.  A layer in geographic coordinates is reprojected to
    EPSG:5551, which is not the equal-area system the function documents
    (EPSG:6933). *)
Theorem geographic_layer_goes_to_5551 :
  exists gdf',
    _ensure_projected_equal_area Examples.wgs84_layer
    = ([EvToCrs EPSG_5551], inr gdf')
    /\ crs gdf' = Some EPSG_5551
    /\ crs_code EPSG_5551 = "EPSG:5551"
    /\ crs_code EPSG_5551 <> documented_equal_area_code.
Proof.
  eexists. split; [reflexivity|]. split; [reflexivity|].
  split; [reflexivity|]. discriminate.
Qed.

(** ** The aggregator *)

Lemma sorted_permutation l : Permutation l (sorted l).
Proof. apply StringSort.Permuted_sort. Qed.

Lemma group_keys_In df n : In n (group_keys df) <-> In n (map Layer df).
Proof.
  unfold group_keys. rewrite nodup_In. split; intros H.
  - apply (Permutation_in _ (Permutation_sym (sorted_permutation _)) H).
  - apply (Permutation_in _ (sorted_permutation _) H).
Qed.

Lemma group_keys_NoDup df : NoDup (group_keys df).
Proof. apply NoDup_nodup. Qed.

Lemma round_column_groups df :
  round_column (map (fun k => mkRecord k (group_total df k)) (group_keys df))
  = map (fun k => mkRecord k (round1 (group_total df k))) (group_keys df).
Proof. unfold round_column. now rewrite map_map. Qed.

Lemma aggregate_nonempty r df :
  aggregate (r :: df)
  = ([], inr (map (fun k => mkRecord k (round1 (group_total (r :: df) k)))
                  (group_keys (r :: df)))).
Proof.
  unfold aggregate, groupby_sum. cbn [bind ret app]. now rewrite round_column_groups.
Qed.

(** *** The aggregator for any arithmetic *)

Section AggregatorFacts.

Context {A : ColumnArithmetic}.



Lemma areas_of_layer_filter name (results : list row) :
  map row_area (filter (fun r => String.eqb (row_layer r) name) results)
  = areas_of_layer name results.
Proof.
  induction results as [|r rest IH]; cbn; [reflexivity|].
  destruct (String.eqb (row_layer r) name); cbn; now rewrite IH.
Qed.

Lemma aggregate_rows_nonempty (r : row) df :
  aggregate_rows (r :: df)
  = ([], inr (map (fun k => mkRow k (round_1 (column_sum (areas_of_layer k (r :: df)))))
                  (keys_of_rows (r :: df)))).
Proof.
  unfold aggregate_rows, groupby_sum_rows, round_rows. cbn [bind ret app].
  rewrite map_map. cbn [row_layer row_area].
  do 2 f_equal. apply map_ext. intros k. now rewrite areas_of_layer_filter.
Qed.



End AggregatorFacts.


Lemma areas_of_records (l : list record) k :
  map (@row_area exact_arithmetic)
      (filter (fun r => String.eqb (row_layer r) k) (map row_of_record l))
  = map area_ha (filter (fun r => String.eqb (Layer r) k) l).
Proof.
  induction l as [|x l IH]; [reflexivity|]. cbn [map filter].
  change (row_layer (row_of_record x)) with (Layer x).
  destruct (String.eqb (Layer x) k); cbn [map]; now rewrite IH.
Qed.

(** The aggregator of the run is the one above at exact rationals. *)
Lemma aggregate_is_exact_instance (results : list record) :
  aggregate results
  = (calls (@aggregate_rows exact_arithmetic (map row_of_record results)),
     match outcome (@aggregate_rows exact_arithmetic (map row_of_record results)) with
     | inl e => inl e
     | inr table => inr (map record_of_row table)
     end).
Proof.
  destruct results as [|r df]; [reflexivity|].
  rewrite aggregate_nonempty.
  change (map row_of_record (r :: df))
    with (row_of_record r :: map row_of_record df).
  rewrite (@aggregate_rows_nonempty exact_arithmetic).
  unfold calls, outcome. cbn [fst snd]. do 2 f_equal.
  change (row_of_record r :: map row_of_record df)
    with (map row_of_record (r :: df)).
  set (l := r :: df). rewrite map_map.
  assert (Hkeys : @keys_of_rows exact_arithmetic (map row_of_record l) = group_keys l).
  { unfold keys_of_rows, group_keys. rewrite map_map. reflexivity. }
  rewrite Hkeys. apply map_ext. intros k. unfold record_of_row.
  cbn [row_layer row_area]. unfold group_total.
  now rewrite <- (@areas_of_layer_filter exact_arithmetic), areas_of_records.
Qed.

(** ** The order of the components *)

Lemma leb_lt_or_eq a b :
  String.leb a b = true <-> String_as_OT.lt a b \/ a = b.
Proof.
  unfold String.leb.
  destruct (String.compare a b) eqn:Hc.
  - apply String.compare_eq_iff in Hc. tauto.
  - apply String_as_OT.cmp_lt in Hc. tauto.
  - split; [discriminate|]. intros [Hlt | ->].
    + apply String_as_OT.cmp_lt in Hlt. unfold String_as_OT.cmp in Hlt. congruence.
    + pose proof (proj2 (String_as_OT.cmp_eq b b) eq_refl) as He.
      unfold String_as_OT.cmp in He. congruence.
Qed.

Lemma string_le_trans a b c : string_le a b -> string_le b c -> string_le a c.
Proof.
  unfold string_le. rewrite !leb_lt_or_eq.
  intros [H1 | ->] [H2 | ->]; auto.
  left. now apply (String_as_OT.lt_trans a b c).
Qed.

Lemma sorted_StronglySorted l : StronglySorted string_le (sorted l).
Proof.
  apply Sorted_StronglySorted.
  - intros a b c. apply string_le_trans.
  - apply StringSort.Sorted_sort.
Qed.

Lemma StronglySorted_unique l1 : forall l2,
  StronglySorted string_le l1 -> StronglySorted string_le l2 ->
  Permutation l1 l2 -> l1 = l2.
Proof.
  induction l1 as [|x r1 IH]; intros l2 S1 S2 P.
  - now apply Permutation_nil in P.
  - destruct l2 as [|y r2].
    + apply Permutation_sym, Permutation_nil in P. discriminate.
    + apply StronglySorted_inv in S1 as [S1 F1].
      apply StronglySorted_inv in S2 as [S2 F2].
      assert (Hxy : x = y).
      { assert (Hx : In x (y :: r2)) by (apply (Permutation_in _ P); now left).
        assert (Hy : In y (x :: r1))
          by (apply (Permutation_in _ (Permutation_sym P)); now left).
        destruct Hx as [->|Hx]; [reflexivity|].
        destruct Hy as [->|Hy]; [reflexivity|].
        rewrite Forall_forall in F1, F2.
        apply String.leb_antisym; [now apply F1 | now apply F2]. }
      subst y. f_equal. apply IH; try assumption.
      now apply Permutation_cons_inv in P.
Qed.

Lemma sorted_of_permutation l1 l2 : Permutation l1 l2 -> sorted l1 = sorted l2.
Proof.
  intros P. apply StronglySorted_unique; try apply sorted_StronglySorted.
  eapply Permutation_trans; [apply Permutation_sym, sorted_permutation|].
  eapply Permutation_trans; [exact P | apply sorted_permutation].
Qed.

Section TwoRuns.

Context {E : GeometryEngine}.
Variables W1 W2 : World.
Hypothesis same_files : forall p, read_file W1 p = read_file W2 p.

Lemma read_any_vector_same p : _read_any_vector W1 p = _read_any_vector W2 p.
Proof. unfold _read_any_vector. now rewrite same_files. Qed.

Lemma read_master_same p : read_master W1 p = read_master W2 p.
Proof. unfold read_master. now rewrite read_any_vector_same. Qed.

Lemma loop_body_same master lnf p st :
  loop_body W1 master lnf p st = loop_body W2 master lnf p st.
Proof. unfold loop_body. now rewrite read_any_vector_same. Qed.

Lemma sequential_allocation_same master lnf shp_paths : forall st,
  sequential_allocation W1 master lnf shp_paths st
  = sequential_allocation W2 master lnf shp_paths st.
Proof.
  induction shp_paths as [|p rest IH]; intros st; simpl; [reflexivity|].
  rewrite loop_body_same. apply bind_ext.
  intros [[|] st']; [apply IH | reflexivity].
Qed.

Lemma run_allocation_same root master_path lnf :
  Permutation (rglob_shp W1 root) (rglob_shp W2 root) ->
  run_allocation W1 root master_path lnf true
  = run_allocation W2 root master_path lnf true.
Proof.
  intros P. unfold run_allocation. rewrite read_master_same.
  apply bind_ext. intros [master mu].
  rewrite !find_components_eq. unfold component_paths.
  rewrite (sorted_of_permutation _ _ P).
  cbn [bind]. now rewrite sequential_allocation_same.
Qed.

End TwoRuns.

Lemma body_break {E : GeometryEngine} (W : World) master lnf shp mu rs l mu' rs' :
  loop_body W master lnf shp (mu, rs) = (l, inr (Break, (mu', rs'))) ->
  is_empty mu' = true.
Proof.
  intros H. pose proof (loop_body_view W master lnf shp mu rs) as V.
  rewrite H in V. inversion V; subst.
  match goal with
  | Hctl : control_after ?g = Break |- _ =>
      unfold control_after in Hctl;
      destruct (is_empty g); [reflexivity | discriminate]
  end.
Qed.

(** A loop that ends with something left of the master has read every file
    it was given. *)
Lemma loop_reads_all {E : GeometryEngine} (W : World) master lnf shp_paths :
  forall mu rs l rem recs,
  sequential_allocation W master lnf shp_paths (mu, rs) = (l, inr (rem, recs)) ->
  is_empty rem = false ->
  reads l = shp_paths.
Proof.
  induction shp_paths as [|p rest IH]; intros mu rs l rem recs H Hne.
  - cbn in H. now injection H as <- _ _.
  - cbn [sequential_allocation] in H.
    apply bind_inr_inv in H as (l1 & [c [mu1 rs1]] & l2 & Hb & Hk & ->).
    pose proof (loop_body_reads W master lnf p mu rs) as Hr.
    rewrite Hb in Hr. unfold calls in Hr. cbn [fst] in Hr.
    rewrite reads_app, Hr. destruct c.
    + cbn. f_equal. now apply (IH _ _ _ _ _ Hk).
    + injection Hk as _ <- _. apply body_break in Hb. congruence.
Qed.

Lemma run_allocation_master_ok {E : GeometryEngine} (W : World)
    root master_path lnf sort_layers lm master mu :
  read_master W master_path = (lm, inr (master, mu)) ->
  run_allocation W root master_path lnf sort_layers
  = (lm ++ EvRglob root
        :: calls (sequential_allocation W master lnf
                    (component_paths W root sort_layers) (mu, [])),
     outcome (sequential_allocation W master lnf
                (component_paths W root sort_layers) (mu, []))).
Proof.
  intros H. unfold run_allocation.
  rewrite (bind_ok _ _ _ _ H), (bind_ok _ _ _ _ (find_components_eq W root sort_layers)).
  reflexivity.
Qed.

(** C9. Deterministic default order.  With [sort_layers] true,
    [find_components] hands the loop the paths found in ascending
    lexicographic order, all of them; the run is the reading of the master,
    the directory walk and the loop over that list; the loop reads the
    files in that order, never skipping one, and reads them all unless it
    raises or the master is used up.  Hence two runs over the same files,
    whatever the order in which the directory walk lists them, hand the
    loop the same list and return the same table (and make the same
    library calls). *)
Theorem deterministic_default_order {E : GeometryEngine} (W1 W2 : World)
    (root master_path lnf : string) :
  (forall p, read_file W1 p = read_file W2 p) ->
  Permutation (rglob_shp W1 root) (rglob_shp W2 root) ->
  find_components W1 root true = ([EvRglob root], inr (sorted (rglob_shp W1 root)))
  /\ StronglySorted string_le (sorted (rglob_shp W1 root))
  /\ Permutation (rglob_shp W1 root) (sorted (rglob_shp W1 root))
  /\ (forall lm master master_union,
        read_master W1 master_path = (lm, inr (master, master_union)) ->
        run_allocation W1 root master_path lnf true
        = (lm ++ EvRglob root
              :: calls (sequential_allocation W1 master lnf
                          (sorted (rglob_shp W1 root)) (master_union, [])),
           outcome (sequential_allocation W1 master lnf
                      (sorted (rglob_shp W1 root)) (master_union, [])))
        /\ (exists unvisited,
              sorted (rglob_shp W1 root)
              = reads (calls (sequential_allocation W1 master lnf
                                (sorted (rglob_shp W1 root)) (master_union, [])))
                ++ unvisited)
        /\ (forall remaining records,
              outcome (sequential_allocation W1 master lnf
                         (sorted (rglob_shp W1 root)) (master_union, []))
              = inr (remaining, records) ->
              is_empty remaining = false ->
              reads (calls (sequential_allocation W1 master lnf
                              (sorted (rglob_shp W1 root)) (master_union, [])))
              = sorted (rglob_shp W1 root)))
  /\ find_components W2 root true = ([EvRglob root], inr (sorted (rglob_shp W1 root)))
  /\ allocate_non_overlapping_areas W1 root master_path lnf true
     = allocate_non_overlapping_areas W2 root master_path lnf true.
Proof.
  intros Hf P. split; [reflexivity|].
  split; [apply sorted_StronglySorted|].
  split; [apply sorted_permutation|]. split; [|split].
  - intros lm master mu Hm. split; [|split].
    + apply (run_allocation_master_ok W1 root master_path lnf true _ _ _ Hm).
    + apply loop_reads_prefix.
    + intros rem recs Ho Hne.
      destruct (sequential_allocation W1 master lnf (sorted (rglob_shp W1 root)) (mu, []))
        as [l o] eqn:Hl.
      unfold outcome in Ho. cbn [snd] in Ho. subst o.
      unfold calls. cbn [fst].
      exact (loop_reads_all W1 master lnf _ _ _ _ _ _ Hl Hne).
  - rewrite find_components_eq. unfold component_paths.
    now rewrite (sorted_of_permutation _ _ P).
  - unfold allocate_non_overlapping_areas.
    now rewrite (run_allocation_same W1 W2 Hf root master_path lnf P).
Qed.

Lemma deterministic_default_order_witness :
  rglob_shp Examples.ab_world "data" = ["data/B/b.shp"; "data/A/a.shp"]
  /\ find_components Examples.ab_world "data" true
     = ([EvRglob "data"], inr ["data/A/a.shp"; "data/B/b.shp"])
  /\ find_components Examples.ab_world' "data" true
     = ([EvRglob "data"], inr ["data/A/a.shp"; "data/B/b.shp"])
  /\ reads (calls (run_allocation Examples.ab_world
                     "data" "master.shp" "parent_folder" true))
     = ["master.shp"; "data/A/a.shp"; "data/B/b.shp"]
  /\ allocate_non_overlapping_areas Examples.ab_world
       "data" "master.shp" "parent_folder" true
     = allocate_non_overlapping_areas Examples.ab_world'
         "data" "master.shp" "parent_folder" true
  /\ allocate_non_overlapping_areas Examples.ab_world
       "data" "master.shp" "parent_folder" false
     <> allocate_non_overlapping_areas Examples.ab_world'
          "data" "master.shp" "parent_folder" false.
Proof.
  destruct (@deterministic_default_order Examples.E10 Examples.ab_world
              Examples.ab_world' "data" "master.shp" "parent_folder")
    as (Hfind & _ & _ & Hrun & Hfind' & Heq).
  - reflexivity.
  - apply perm_swap.
  - split; [reflexivity|].
    split; [etransitivity; [exact Hfind | vm_compute; reflexivity]|].
    split; [etransitivity; [exact Hfind' | vm_compute; reflexivity]|].
    split; [|split; [exact Heq | vm_compute; discriminate]].
    destruct (Hrun [EvRead "master.shp"; EvMakeValid; EvUnionAll]
                   Examples.master10 (Raster.strip 0 10))
      as (Hr & _ & _); [vm_compute; reflexivity|].
    rewrite Hr. vm_compute. reflexivity.
Defined.

(** * Further properties of the code *)

(** ** Reading a vector file *)

Lemma In_keep_notnull_rows {E : GeometryEngine} (rows : list (option geom)) g :
  In (Some g) (filter notnull rows) <-> In (Some g) rows.
Proof.
  rewrite filter_In. simpl. tauto.
Qed.

Lemma filter_notnull_all {E : GeometryEngine} (rows : list (option geom)) :
  Forall (fun o => notnull o = true) (filter notnull rows).
Proof.
  apply Forall_forall. intros o Ho. now apply filter_In in Ho.
Qed.

Lemma filter_notnull_nil {E : GeometryEngine} (rows : list (option geom)) :
  List.length (filter notnull rows) = 0%nat ->
  forall g, ~ In (Some g) rows.
Proof.
  intros H g Hg. apply In_keep_notnull_rows in Hg.
  destruct (filter notnull rows); [contradiction | discriminate].
Qed.

Lemma validated_facts {E : GeometryEngine} (W : World) (path : string) :
  reads (read_calls W path) = [path]
  /\ Forall (fun o => notnull o = true) (geometry (validated W path))
  /\ crs (validated W path) = crs (read_file W path)
  /\ (forall g', In (Some g') (geometry (validated W path))
                 <-> exists g, In (Some g) (geometry (read_file W path))
                               /\ make_valid g = Some g')
  /\ (len (validated W path) <= len (read_file W path))%nat
  /\ (In EvMakeValid (read_calls W path)
      <-> exists g, In (Some g) (geometry (read_file W path))).
Proof.
  split; [apply read_calls_reads|].
  unfold validated, read_calls, len, keep_notnull, make_valid_column.
  cbn [geometry crs].
  set (rows := geometry (read_file W path)).
  destruct (List.length (filter notnull rows) =? 0)%nat eqn:Hz; cbn [geometry crs].
  - apply Nat.eqb_eq in Hz. pose proof (filter_notnull_nil rows Hz) as Hnone.
    split; [apply filter_notnull_all|]. split; [reflexivity|]. split; [|split].
    + intros g'. split.
      * intros Hg. rewrite In_keep_notnull_rows in Hg. now apply Hnone in Hg.
      * intros (g & Hg & _). now apply Hnone in Hg.
    + apply filter_length_le.
    + split.
      * intros [H|[]]. discriminate.
      * intros (g & Hg). now apply Hnone in Hg.
  - apply Nat.eqb_neq in Hz.
    split; [apply filter_notnull_all|]. split; [reflexivity|]. split; [|split].
    + intros g'. rewrite In_keep_notnull_rows, in_map_iff. split.
      * intros ([g|] & Hmv & Ho); [|discriminate].
        rewrite In_keep_notnull_rows in Ho. now exists g.
      * intros (g & Hg & Hmv). exists (Some g). split; [assumption|].
        now apply In_keep_notnull_rows.
    + eapply Nat.le_trans; [apply filter_length_le|].
      rewrite length_map. apply filter_length_le.
    + split.
      * intros _. destruct (filter notnull rows) as [|[g|] r] eqn:Hf.
        -- now contradiction Hz.
        -- exists g. apply In_keep_notnull_rows. rewrite Hf. now left.
        -- pose proof (filter_notnull_all rows) as Ha. rewrite Hf in Ha.
           inversion Ha; discriminate.
      * intros _. right. now left.
Qed.

(** What [_read_any_vector] returns for a file that [gpd.read_file] could
    read: only that file was read; the frame has no null row and the
    reference system of the file; its rows are exactly the successful
    repairs of the file's non-null rows, so it has no more rows than the
    file; and [make_valid] was called exactly when the file has a non-null
    row. *)
Theorem read_any_vector_keeps_valid {E : GeometryEngine} (W : World)
    (path : string) l gdf :
  _read_any_vector W path = (l, inr gdf) ->
  reads l = [path]
  /\ Forall (fun o => notnull o = true) (geometry gdf)
  /\ crs gdf = crs (read_file W path)
  /\ (forall g', In (Some g') (geometry gdf)
                 <-> exists g, In (Some g) (geometry (read_file W path))
                               /\ make_valid g = Some g')
  /\ (len gdf <= len (read_file W path))%nat
  /\ (In EvMakeValid l <-> exists g, In (Some g) (geometry (read_file W path))).
Proof.
  rewrite read_any_vector_eq. intros [= <- <-]. apply validated_facts.
Qed.

Lemma read_any_vector_keeps_valid_witness :
  exists l gdf,
    _read_any_vector MoreExamples.mixed_world "data/N/n.shp" = (l, inr gdf)
    /\ len (read_file MoreExamples.mixed_world "data/N/n.shp") = 3%nat
    /\ len gdf = 1%nat
    /\ reads l = ["data/N/n.shp"]
    /\ Forall (fun o => notnull o = true) (geometry gdf).
Proof.
  eexists _, _. split; [vm_compute; reflexivity|].
  split; [reflexivity|]. split; [reflexivity|].
  destruct (@read_any_vector_keeps_valid Examples.E10 MoreExamples.mixed_world
              "data/N/n.shp" [EvRead "data/N/n.shp"; EvMakeValid]
              (@mkGDF Examples.E10 [Some (Raster.strip 8 4)] (Some Examples.laea)))
    as (Hr & Hnn & _).
  - vm_compute. reflexivity.
  - split; [exact Hr | exact Hnn].
Defined.

(** ** Normalising a layer *)

(** [_ensure_projected_equal_area] raises exactly when the layer declares
    no reference system.  When it returns, the layer has as many rows as
    before and a projected system, at most one library call was made, and
    normalising the result again returns it as it is with no call. *)
Theorem ensure_projected_idempotent {E : GeometryEngine} (gdf : GeoDataFrame) :
  (crs gdf = None <-> outcome (_ensure_projected_equal_area gdf) = inl ValueError_NoCRS)
  /\ (crs gdf <> None <->
      exists l gdf',
        _ensure_projected_equal_area gdf = (l, inr gdf')
        /\ (List.length l <= 1)%nat
        /\ len gdf' = len gdf
        /\ (exists c, crs gdf' = Some c /\ is_geographic c = false)
        /\ _ensure_projected_equal_area gdf' = ([], inr gdf')).
Proof.
  destruct (crs gdf) as [c|] eqn:Hc.
  - split.
    + split; [discriminate|].
      destruct (ensure_ok gdf c Hc) as (l & g' & He & _). now rewrite He.
    + split; [|discriminate]. intros _.
      destruct (is_geographic c) eqn:Hg.
      * rewrite (ensure_geographic gdf c Hc Hg), (to_crs_ok gdf c _ Hc).
        eexists _, _. split; [reflexivity|]. split; [simpl; lia|]. split.
        -- unfold len. simpl. apply length_map.
        -- split; [now exists EPSG_5551 | reflexivity].
      * rewrite (ensure_projected_unchanged gdf c Hc Hg).
        eexists _, _. split; [reflexivity|]. split; [simpl; lia|].
        split; [reflexivity|]. split; [now exists c|].
        now apply (ensure_projected_unchanged gdf c).
  - split.
    + split; [|reflexivity]. intros _. now rewrite (ensure_no_crs gdf Hc).
    + split; [congruence|]. intros (l & g' & He & _).
      rewrite (ensure_no_crs gdf Hc) in He. discriminate.
Qed.

(** ** Reading the master *)

Lemma read_master_inv {E : GeometryEngine} (W : World) master_path lm master mu :
  read_master W master_path = (lm, inr (master, mu)) ->
  reads lm = [master_path]
  /\ len master <> 0%nat
  /\ Forall (fun o => notnull o = true) (geometry master)
  /\ (exists c, crs master = Some c /\ is_geographic c = false)
  /\ mu = union (geoms master).
Proof.
  unfold read_master.
  rewrite (bind_ok _ _ _ _ (read_any_vector_eq W master_path)).
  destruct (len (validated W master_path) =? 0)%nat eqn:Hz;
    [cbn; discriminate|].
  apply Nat.eqb_neq in Hz.
  destruct (crs (validated W master_path)) as [c|] eqn:Hc.
  - assert (Hnn : Forall (fun o => notnull o = true)
                    (geometry (validated W master_path))).
    { unfold validated.
      destruct (len (keep_notnull (read_file W master_path)) =? 0)%nat;
        apply filter_notnull_all. }
    destruct (is_geographic c) eqn:Hg.
    + rewrite (bind_ok _ _ _ _ (eq_trans (ensure_geographic _ c Hc Hg)
                                           (to_crs_ok _ c _ Hc))).
      cbn. intros [= <- <- <-].
      change (EvToCrs EPSG_5551 :: [EvUnionAll])
        with ([EvToCrs EPSG_5551] ++ [EvUnionAll]).
      rewrite !reads_app, read_calls_reads.
      split; [reflexivity|]. split.
      * unfold len in *. cbn. now rewrite length_map.
      * split; [|split; [now exists EPSG_5551 | reflexivity]].
        cbn. apply Forall_forall. intros o Ho.
        apply in_map_iff in Ho as (o' & <- & Ho').
        rewrite Forall_forall in Hnn. specialize (Hnn o' Ho').
        now destruct o'.
    + rewrite (bind_ok _ _ _ _ (ensure_projected_unchanged _ c Hc Hg)).
      cbn. intros [= <- <- <-].
      rewrite !reads_app, read_calls_reads.
      split; [reflexivity|]. split; [assumption|].
      split; [assumption|]. split; [now exists c | reflexivity].
  - rewrite (bind_raise _ _ _ _ (ensure_no_crs _ Hc)). cbn. discriminate.
Qed.

(** When [read_master] returns, only the master file was read, the master
    has at least one row and no null row, its reference system is projected
    (so the loop never works in geographic coordinates), and the remaining
    geometry starts as the union of its rows. *)
Theorem read_master_post {E : GeometryEngine} (W : World) master_path lm master mu :
  read_master W master_path = (lm, inr (master, mu)) ->
  reads lm = [master_path]
  /\ len master <> 0%nat
  /\ Forall (fun o => notnull o = true) (geometry master)
  /\ (exists c, crs master = Some c /\ is_geographic c = false)
  /\ mu = union (geoms master).
Proof. apply read_master_inv. Qed.

Lemma read_master_post_witness :
  exists lm master mu,
    read_master MoreExamples.mixed_world "master.shp" = (lm, inr (master, mu))
    /\ crs master = Some EPSG_5551
    /\ reads lm = ["master.shp"].
Proof.
  eexists _, _, _. split; [vm_compute; reflexivity|].
  split; [reflexivity|].
  eapply (@read_master_post Examples.E10 MoreExamples.mixed_world "master.shp").
  vm_compute. reflexivity.
Defined.

(** ** Components in the master's frame *)

Lemma CRS_eqb_eq a b : CRS_eqb a b = true <-> a = b.
Proof.
  destruct a as [ca ga], b as [cb gb]. unfold CRS_eqb. cbn [crs_code is_geographic].
  rewrite andb_true_iff, String.eqb_eq, Bool.eqb_true_iff.
  split; [intros [-> ->]; reflexivity | intros [= -> ->]; now split].
Qed.

Section Frame.

Context {E : GeometryEngine}.
Variable W : World.
Variable master : GeoDataFrame.
Variable mc : CRS.
Hypothesis master_crs : crs master = Some mc.

Lemma conform_ok_with_master shp comp c :
  crs comp = Some c ->
  exists lc cu, conform_component master shp comp = (lc, inr cu).
Proof.
  intros Hc. unfold conform_component. rewrite Hc, master_crs.
  destruct (crs_ne (Some c) (Some mc)).
  - rewrite (bind_ok _ _ _ _ (to_crs_ok comp c mc Hc)).
    match goal with |- context [_ensure_projected_equal_area ?g] =>
      destruct (ensure_ok g mc eq_refl) as (l & g' & He & _) end.
    rewrite (bind_ok _ _ _ _ He). cbn. now eexists _, _.
  - cbn. destruct (ensure_ok comp c Hc) as (l & g' & He & _).
    rewrite He. cbn. now eexists _, _.
Qed.

Hypothesis master_projected : is_geographic mc = false.

(** With a projected master, a component in the master's system is
    dissolved as it is, and any other is reprojected once, to the master's
    system; line 102 then has nothing to do. *)
Lemma conform_in_master_frame shp comp c :
  crs comp = Some c ->
  conform_component master shp comp
  = (if CRS_eqb c mc then [EvUnionAll] else [EvToCrs mc; EvUnionAll],
     inr (union (geoms
            (if CRS_eqb c mc then comp
             else mkGDF (map (option_map (reproject c mc)) (geometry comp))
                        (Some mc))))).
Proof.
  intros Hc. unfold conform_component. rewrite Hc, master_crs.
  cbn [crs_ne]. destruct (CRS_eqb c mc) eqn:Heq; cbn [negb].
  - apply CRS_eqb_eq in Heq. subst c.
    cbn [bind ret app]. rewrite (ensure_projected_unchanged comp mc Hc master_projected).
    reflexivity.
  - rewrite (bind_ok _ _ _ _ (to_crs_ok comp c mc Hc)).
    match goal with |- context [_ensure_projected_equal_area ?g] =>
      rewrite (bind_ok _ _ _ _ (ensure_projected_unchanged g mc eq_refl master_projected))
    end.
    reflexivity.
Qed.

Lemma body_to_crs lnf shp st t :
  In (EvToCrs t) (calls (loop_body W master lnf shp st)) -> t = mc.
Proof.
  destruct st as [mu rs].
  destruct (loop_body_view W master lnf shp mu rs) as [Hz | lc e Hn Hc | lc cu Hn Hc];
    unfold calls; cbn [fst]; intros Hin.
  - unfold read_calls in Hin.
    destruct (len (keep_notnull (read_file W shp)) =? 0)%nat;
      cbn in Hin; intuition discriminate.
  - destruct (crs (validated W shp)) as [c|] eqn:Hcrs.
    + rewrite (conform_in_master_frame shp _ c Hcrs) in Hc. discriminate.
    + rewrite (conform_no_crs master shp _ Hcrs) in Hc. injection Hc as <- _.
      rewrite app_nil_r in Hin. unfold read_calls in Hin.
      destruct (len (keep_notnull (read_file W shp)) =? 0)%nat;
        cbn in Hin; intuition discriminate.
  - destruct (crs (validated W shp)) as [c|] eqn:Hcrs.
    + rewrite (conform_in_master_frame shp _ c Hcrs) in Hc. injection Hc as <- _.
      unfold allocation_calls in Hin. rewrite intersect_with_remaining_eq in Hin.
      unfold calls, read_calls in Hin. cbn [fst] in Hin.
      destruct (len (keep_notnull (read_file W shp)) =? 0)%nat;
        destruct (CRS_eqb c mc);
        destruct (is_empty (intersection _ mu));
        cbn in Hin; intuition (try discriminate; congruence).
    + rewrite (conform_no_crs master shp _ Hcrs) in Hc. discriminate.
Qed.

Lemma loop_to_crs lnf shp_paths t : forall st,
  In (EvToCrs t) (calls (sequential_allocation W master lnf shp_paths st)) -> t = mc.
Proof.
  induction shp_paths as [|p rest IH]; intros st; [intros []|].
  pose proof (body_to_crs lnf p st t) as Hb.
  destruct (loop_body W master lnf p st) as [lb [e|[[|] st']]] eqn:Hbody;
    unfold calls in Hb; cbn [fst] in Hb.
  - now rewrite (loop_cons_raise W _ _ _ rest _ _ _ Hbody).
  - rewrite (loop_cons_next W _ _ _ rest _ _ _ Hbody).
    unfold calls at 1. cbn [fst]. intros Hin.
    apply in_app_or in Hin as [Hin|Hin]; [now apply Hb | now apply (IH st')].
  - now rewrite (loop_cons_break W _ _ _ rest _ _ _ Hbody).
Qed.

End Frame.

(** In a run, every reprojection the loop asks for is into the system of
    the master it was handed: a component is never sent to the fixed
    system of [_ensure_projected_equal_area], which can only ever apply to
    the master itself. *)
Theorem components_conform_to_master {E : GeometryEngine} (W : World)
    (root master_path lnf : string) (sort_layers : bool) lm master mu t :
  read_master W master_path = (lm, inr (master, mu)) ->
  In (EvToCrs t)
     (calls (sequential_allocation W master lnf
               (component_paths W root sort_layers) (mu, []))) ->
  crs master = Some t.
Proof.
  intros Hm Hin.
  unfold read_master in Hm.
  rewrite (bind_ok _ _ _ _ (read_any_vector_eq W master_path)) in Hm.
  destruct (len (validated W master_path) =? 0)%nat; [discriminate|].
  destruct (crs (validated W master_path)) as [c|] eqn:Hc.
  - destruct (ensure_ok _ c Hc) as (l & g' & He & _ & _ & c' & Hc' & Hg').
    rewrite (bind_ok _ _ _ _ He) in Hm. cbn in Hm. injection Hm as _ <- _.
    rewrite Hc'. f_equal. symmetry.
    exact (loop_to_crs W g' c' Hc' Hg' lnf
             (component_paths W root sort_layers) t (mu, []) Hin).
  - rewrite (bind_raise _ _ _ _ (ensure_no_crs _ Hc)) in Hm. discriminate.
Qed.

Lemma components_conform_to_master_witness :
  calls (sequential_allocation MoreExamples.mixed_world MoreExamples.mixed_master
           "parent_folder"
           (component_paths MoreExamples.mixed_world "data" true)
           (Raster.strip 0 10, []))
  = [EvRead "data/A/a.shp"; EvMakeValid; EvToCrs EPSG_5551; EvUnionAll;
     EvIntersection; EvArea; EvDifference;
     EvRead "data/B/b.shp"; EvMakeValid; EvUnionAll;
     EvIntersection; EvArea; EvDifference;
     EvRead "data/N/n.shp"; EvMakeValid; EvToCrs EPSG_5551; EvUnionAll;
     EvIntersection; EvArea; EvDifference]
  /\ crs MoreExamples.mixed_master = Some EPSG_5551.
Proof.
  split; [vm_compute; reflexivity|].
  eapply (@components_conform_to_master Examples.E10 MoreExamples.mixed_world
            "data" "master.shp" "parent_folder" true).
  - vm_compute. reflexivity.
  - vm_compute. right. right. now left.
Defined.

(** ** Records, rows and files *)

Lemma component_paths_permutation {E : GeometryEngine} (W : World) root sort_layers :
  Permutation (rglob_shp W root) (component_paths W root sort_layers).
Proof.
  unfold component_paths. destruct sort_layers;
    [apply sorted_permutation | apply Permutation_refl].
Qed.

Section Records.

Context {E : GeometryEngine}.
Variable W : World.
Variable master : GeoDataFrame.
Variable lnf : string.

Lemma body_records shp mu rs l c mu' rs' :
  loop_body W master lnf shp (mu, rs) = (l, inr (c, (mu', rs'))) ->
  exists a, rs' = rs ++ [mkRecord (layer_name_of lnf shp) a].
Proof.
  intros H. pose proof (loop_body_view W master lnf shp mu rs) as V.
  rewrite H in V. inversion V; subst; now eexists.
Qed.

Lemma loop_records shp_paths : forall mu rs l rem recs,
  sequential_allocation W master lnf shp_paths (mu, rs) = (l, inr (rem, recs)) ->
  map Layer recs = map Layer rs ++ names_read lnf l.
Proof.
  unfold names_read.
  induction shp_paths as [|p rest IH]; intros mu rs l rem recs H.
  - cbn in H. injection H as <- _ <-. cbn. now rewrite app_nil_r.
  - cbn [sequential_allocation] in H.
    apply bind_inr_inv in H as (l1 & [c [mu1 rs1]] & l2 & Hb & Hk & ->).
    pose proof (loop_body_reads W master lnf p mu rs) as Hr.
    rewrite Hb in Hr. unfold calls in Hr. cbn [fst] in Hr.
    apply body_records in Hb as [a ->].
    rewrite reads_app, Hr. destruct c.
    + apply IH in Hk. rewrite Hk, map_app. cbn. now rewrite <- app_assoc.
    + injection Hk as <- _ <-. rewrite map_app. cbn. reflexivity.
Qed.

End Records.

(** One record per file read: when the loop ends without an exception, the
    layer names of the records it added are, in order, the layer names of
    the files it read, and those files are an initial segment of the list
    it was given. *)
Theorem one_record_per_file {E : GeometryEngine} (W : World) master lnf
    shp_paths mu rs l rem recs :
  sequential_allocation W master lnf shp_paths (mu, rs) = (l, inr (rem, recs)) ->
  map Layer recs = map Layer rs ++ names_read lnf l
  /\ List.length recs = (List.length rs + List.length (reads l))%nat
  /\ exists unread, shp_paths = reads l ++ unread.
Proof.
  intros H. pose proof (loop_records W master lnf shp_paths mu rs l rem recs H) as Hn.
  split; [assumption|]. split.
  - apply (f_equal (@List.length string)) in Hn.
    unfold names_read in Hn. now rewrite length_app, !length_map in Hn.
  - destruct (loop_reads_prefix W master lnf shp_paths (mu, rs)) as [u Hu].
    rewrite H in Hu. now exists u.
Qed.

Lemma one_record_per_file_witness :
  exists l rem recs,
    sequential_allocation Examples.hollow_world Examples.master10 "filename"
      ["data/A/a.shp"; "data/B/b.shp"] (Raster.strip 0 10, [])
    = (l, inr (rem, recs))
    /\ (map Layer recs = map Layer [] ++ names_read "filename" l
        /\ List.length recs = (List.length (@nil record) + List.length (reads l))%nat
        /\ exists unread, ["data/A/a.shp"; "data/B/b.shp"] = reads l ++ unread).
Proof.
  eexists _, _, _. split; [vm_compute; reflexivity|].
  eapply (@one_record_per_file Examples.E10 Examples.hollow_world
            Examples.master10 "filename" ["data/A/a.shp"; "data/B/b.shp"]
            (Raster.strip 0 10) []).
  vm_compute. reflexivity.
Defined.

(** ** What a run can raise *)

Lemma loop_raises_component {E : GeometryEngine} (W : World) master mc lnf shp_paths :
  crs master = Some mc ->
  forall st e,
  outcome (sequential_allocation W master lnf shp_paths st) = inl e ->
  exists shp, In shp shp_paths /\ e = ValueError_ComponentNoCRS shp
              /\ len (validated W shp) <> 0%nat
              /\ crs (read_file W shp) = None.
Proof.
  intros Hmc. induction shp_paths as [|p rest IH]; intros [mu rs] e; [discriminate|].
  pose proof (loop_body_view W master lnf p mu rs) as V.
  remember (loop_body W master lnf p (mu, rs)) as b eqn:Hb.
  destruct V as [Hz | lc e' Hn Hc | lc cu Hn Hc]; symmetry in Hb.
  - rewrite (loop_cons_next W _ _ _ rest _ _ _ Hb). unfold outcome at 1. cbn [snd].
    intros H. apply IH in H as (shp & Hin & Hrest). exists shp. split; [now right | assumption].
  - rewrite (loop_cons_raise W _ _ _ rest _ _ _ Hb). unfold outcome. cbn [snd].
    intros [= <-]. exists p. split; [now left|].
    destruct (crs (validated W p)) as [c|] eqn:Hcrs.
    + destruct (conform_ok_with_master master mc Hmc p _ c Hcrs) as (lc' & cu & Hok).
      rewrite Hok in Hc. discriminate.
    + rewrite (conform_no_crs master p _ Hcrs) in Hc. injection Hc as _ <-.
      split; [reflexivity|]. split; [assumption | now rewrite <- validated_crs].
  - destruct (control_after (remaining_after cu mu)).
    + rewrite (loop_cons_next W _ _ _ rest _ _ _ Hb). unfold outcome at 1. cbn [snd].
      intros H. apply IH in H as (shp & Hin & Hrest).
      exists shp. split; [now right | assumption].
    + rewrite (loop_cons_break W _ _ _ rest _ _ _ Hb). discriminate.
Qed.

(** Each error about a reference system has one cause.  The error of
    [_ensure_projected_equal_area] ends a run exactly when the master has
    features and declares no reference system: it is never raised for a
    component.  The error naming a component is raised only for a file
    that was found, has features and declares no reference system.  And
    [to_crs] is never called on a layer without a reference system or
    without a target. *)
Theorem crs_errors_by_site {E : GeometryEngine} (W : World)
    (root master_path lnf : string) (sort_layers : bool) :
  (outcome (allocate_non_overlapping_areas W root master_path lnf sort_layers)
   = inl ValueError_NoCRS
   <-> len (validated W master_path) <> 0%nat
       /\ crs (read_file W master_path) = None)
  /\ (forall shp,
        outcome (allocate_non_overlapping_areas W root master_path lnf sort_layers)
        = inl (ValueError_ComponentNoCRS shp) ->
        In shp (rglob_shp W root)
        /\ len (validated W shp) <> 0%nat
        /\ crs (read_file W shp) = None
        /\ crs (read_file W master_path) <> None)
  /\ outcome (allocate_non_overlapping_areas W root master_path lnf sort_layers)
     <> inl ValueError_NaiveToCrs.
Proof.
  destruct (read_master_cases W master_path)
    as [[H0 Hm] | [(Hn & Hc & Hm) | (Hn & Hc & lm & master & mu & Hm)]].
  - rewrite (allocate_master_raise W root _ lnf sort_layers _ _ Hm).
    unfold outcome. cbn [snd]. split; [|split].
    + split; [discriminate | intros [Hn _]; contradiction].
    + discriminate.
    + discriminate.
  - rewrite (allocate_master_raise W root _ lnf sort_layers _ _ Hm).
    unfold outcome. cbn [snd]. split; [|split].
    + split; [now split | reflexivity].
    + discriminate.
    + discriminate.
  - pose proof (allocate_master_ok W root _ lnf sort_layers _ _ _ Hm) as Ha.
    cbv zeta in Ha.
    destruct (read_master_inv W master_path lm master mu Hm)
      as (_ & _ & _ & (mc & Hmc & _) & _).
    pose proof (loop_raises_component W master mc lnf
                  (component_paths W root sort_layers) Hmc (mu, [])) as Hloop.
    set (loop := sequential_allocation W master lnf
                   (component_paths W root sort_layers) (mu, [])) in *.
    assert (Hout : outcome (allocate_non_overlapping_areas W root master_path
                              lnf sort_layers)
                   = match outcome loop with
                     | inl e => inl e
                     | inr (_, results) => outcome (aggregate results)
                     end) by (rewrite Ha; reflexivity).
    rewrite Hout. clear Ha Hout.
    destruct (outcome loop) as [e|[rem results]].
    + destruct (Hloop e eq_refl) as (shp & Hin & -> & Hlen & Hcrs).
      split; [|split].
      * split; [discriminate | intros [_ Hnone]; contradiction].
      * intros shp' [= Heq]. subst shp'. repeat split; try assumption.
        apply (Permutation_in _ (Permutation_sym
                 (component_paths_permutation W root sort_layers)) Hin).
      * discriminate.
    + split; [|split].
      * split; [destruct results; discriminate | intros [_ Hnone]; contradiction].
      * intros shp'. destruct results; discriminate.
      * destruct results; discriminate.
Qed.

Lemma crs_errors_by_site_witness :
  outcome (allocate_non_overlapping_areas Examples.naive_world
             "data" "master.shp" "parent_folder" true)
  = inl (ValueError_ComponentNoCRS "data/A/a.shp")
  /\ In "data/A/a.shp" (rglob_shp Examples.naive_world "data")
  /\ crs (read_file Examples.naive_world "data/A/a.shp") = None.
Proof.
  assert (H : outcome (allocate_non_overlapping_areas Examples.naive_world
                         "data" "master.shp" "parent_folder" true)
              = inl (ValueError_ComponentNoCRS "data/A/a.shp"))
    by (vm_compute; reflexivity).
  split; [exact H|].
  destruct (proj1 (proj2 (@crs_errors_by_site Examples.E10 Examples.naive_world
                            "data" "master.shp" "parent_folder" true))
                  "data/A/a.shp" H)
    as (Hin & _ & Hcrs & _).
  split; [exact Hin | exact Hcrs].
Defined.

(** ** The table and the files found *)

Lemma loop_reads_head {E : GeometryEngine} (W : World) master lnf p rest st :
  exists tl,
    reads (calls (sequential_allocation W master lnf (p :: rest) st)) = p :: tl.
Proof.
  destruct st as [mu rs].
  pose proof (loop_body_reads W master lnf p mu rs) as Hr.
  destruct (loop_body W master lnf p (mu, rs)) as [lb [e|[[|] st']]] eqn:Hb;
    unfold calls in Hr; cbn [fst] in Hr.
  - rewrite (loop_cons_raise W _ _ _ rest _ _ _ Hb). exists [].
    unfold calls. cbn [fst]. assumption.
  - rewrite (loop_cons_next W _ _ _ rest _ _ _ Hb). eexists.
    unfold calls at 1. cbn [fst]. rewrite reads_app, Hr. reflexivity.
  - rewrite (loop_cons_break W _ _ _ rest _ _ _ Hb). exists [].
    unfold calls. cbn [fst]. assumption.
Qed.

Lemma loop_records_nonempty {E : GeometryEngine} (W : World) master lnf p rest
    mu l rem recs :
  sequential_allocation W master lnf (p :: rest) (mu, []) = (l, inr (rem, recs)) ->
  recs <> [].
Proof.
  intros H Hnil. subst recs.
  pose proof (loop_records W master lnf _ _ _ _ _ _ H) as Hn.
  destruct (loop_reads_head W master lnf p rest (mu, [])) as [tl Ht].
  rewrite H in Ht. unfold calls in Ht. cbn [fst] in Ht.
  unfold names_read in Hn. rewrite Ht in Hn. discriminate.
Qed.

(** With a master that reads well, the run ends in the aggregator's
    [KeyError] exactly when no shapefile is found under the components
    root: a run over no component returns no (empty) table. *)
Theorem no_components_key_error {E : GeometryEngine} (W : World)
    (root master_path lnf : string) (sort_layers : bool) lm master mu :
  read_master W master_path = (lm, inr (master, mu)) ->
  outcome (allocate_non_overlapping_areas W root master_path lnf sort_layers)
  = inl (KeyError "Layer")
  <-> rglob_shp W root = [].
Proof.
  intros Hm.
  rewrite (allocate_master_ok W root _ lnf sort_layers _ _ _ Hm).
  unfold outcome at 1. cbn [snd].
  pose proof (component_paths_permutation W root sort_layers) as P.
  destruct (component_paths W root sort_layers) as [|p rest] eqn:Hp.
  - apply Permutation_sym, Permutation_nil in P. cbn. now split.
  - split.
    + intros H. exfalso.
      destruct (sequential_allocation W master lnf (p :: rest) (mu, []))
        as [l [e|[rem results]]] eqn:Hl; unfold outcome in H; cbn [snd] in H.
      * destruct (read_master_inv W master_path lm master mu Hm)
          as (_ & _ & _ & (mc & Hmc & _) & _).
        destruct (loop_raises_component W master mc lnf (p :: rest) Hmc (mu, []) e)
          as (shp & _ & He & _); [now rewrite Hl|].
        injection H as ->. discriminate.
      * apply loop_records_nonempty in Hl. destruct results; [now apply Hl|].
        discriminate.
    + intros Hnil. rewrite Hnil in P. apply Permutation_nil in P. discriminate.
Qed.

Lemma no_components_key_error_witness :
  rglob_shp MoreExamples.lonely_world "data" = []
  /\ outcome (allocate_non_overlapping_areas MoreExamples.lonely_world
                "data" "master.shp" "parent_folder" true)
     = inl (KeyError "Layer").
Proof.
  split; [reflexivity|].
  apply (proj2 (@no_components_key_error Examples.E10 MoreExamples.lonely_world
                  "data" "master.shp" "parent_folder" true
                  [EvRead "master.shp"; EvMakeValid; EvUnionAll]
                  Examples.master10 (Raster.strip 0 10) eq_refl)).
  reflexivity.
Defined.

(** When a run returns a table, the table has at least one row and no more
    rows than shapefiles were found, and every layer name in it is the
    layer name of a file that was found. *)
Theorem table_rows_from_files {E : GeometryEngine} (W : World)
    (root master_path lnf : string) (sort_layers : bool) l table :
  allocate_non_overlapping_areas W root master_path lnf sort_layers = (l, inr table) ->
  table <> []
  /\ (List.length table <= List.length (rglob_shp W root))%nat
  /\ forall n, In n (map Layer table) ->
       exists shp, In shp (rglob_shp W root) /\ layer_name_of lnf shp = n.
Proof.
  intros H. unfold allocate_non_overlapping_areas in H.
  apply bind_inr_inv in H as (l1 & [rem results] & l2 & Hrun & Hagg & _).
  unfold run_allocation in Hrun.
  apply bind_inr_inv in Hrun as (lm & [master mu] & l3 & Hm & Hrun & _).
  rewrite (bind_ok _ _ _ _ (find_components_eq W root sort_layers)) in Hrun.
  injection Hrun as _ Hloop.
  destruct (sequential_allocation W master lnf (component_paths W root sort_layers)
              (mu, [])) as [ll o] eqn:Hl.
  unfold outcome in Hloop. cbn [snd] in Hloop. subst o.
  pose proof (loop_records W master lnf _ _ _ _ _ _ Hl) as Hn. cbn [map app] in Hn.
  destruct (loop_reads_prefix W master lnf (component_paths W root sort_layers) (mu, []))
    as [u Hu].
  rewrite Hl in Hu. unfold calls in Hu. cbn [fst] in Hu.
  pose proof (component_paths_permutation W root sort_layers) as P.
  destruct results as [|r df]; [discriminate|].
  rewrite aggregate_nonempty in Hagg. injection Hagg as _ <-.
  assert (Hnames : map Layer (map (fun k => mkRecord k
                     (round1 (group_total (r :: df) k))) (group_keys (r :: df)))
                   = group_keys (r :: df)).
  { rewrite map_map. cbn. apply map_id. }
  split; [|split].
  - intros Hnil. apply (f_equal (map Layer)) in Hnil. rewrite Hnames in Hnil.
    assert (Hin : In (Layer r) (group_keys (r :: df)))
      by (apply group_keys_In; now left).
    rewrite Hnil in Hin. contradiction.
  - rewrite length_map.
    eapply Nat.le_trans.
    { apply (NoDup_incl_length (group_keys_NoDup (r :: df))
               (l' := map Layer (r :: df))).
      intros k. apply group_keys_In. }
    rewrite Hn. unfold names_read. rewrite length_map.
    rewrite (Permutation_length P), Hu, length_app. lia.
  - intros n Hin. rewrite Hnames in Hin. apply group_keys_In in Hin.
    rewrite Hn in Hin. unfold names_read in Hin.
    apply in_map_iff in Hin as (shp & Hname & Hshp).
    exists shp. split; [|assumption].
    apply (Permutation_in _ (Permutation_sym P)).
    rewrite Hu. apply in_or_app. now left.
Qed.

Lemma table_rows_from_files_witness :
  exists l table,
    allocate_non_overlapping_areas MoreExamples.mixed_world
      "data" "master.shp" "parent_folder" true = (l, inr table)
    /\ map Layer table = ["A"; "B"; "N"]
    /\ table <> [].
Proof.
  eexists _, _. split; [vm_compute; reflexivity|]. split; [reflexivity|].
  eapply (@table_rows_from_files Examples.E10 MoreExamples.mixed_world
            "data" "master.shp" "parent_folder" true).
  vm_compute. reflexivity.
Defined.

(** ** What remains of the master *)

Section Remaining.

Context {E : GeometryEngine} {L : GeometryLaws E}.
Variable W : World.
Variable master : GeoDataFrame.
Variable lnf : string.

(** Subtracting the allocated intersection leaves the master minus the
    component. *)
Lemma covers_remaining_after cu mu p :
  covers (remaining_after cu mu) p <-> covers mu p /\ ~ covers cu p.
Proof.
  unfold remaining_after.
  destruct (is_empty (intersection cu mu)) eqn:Hem.
  - pose proof (proj1 (is_empty_covers _) Hem p) as Hp.
    rewrite covers_intersection in Hp. tauto.
  - rewrite covers_difference, covers_intersection. tauto.
Qed.

Lemma allocated_in_app_empty l1 l2 p0 shp cu :
  reads l1 = [p0] -> len (validated W p0) = 0%nat ->
  allocated_in W master (l1 ++ l2) shp cu <-> allocated_in W master l2 shp cu.
Proof.
  intros Hr Hz. unfold allocated_in. rewrite reads_app, Hr. cbn. split.
  - intros ([<-|Hin] & Hn & Hc); [contradiction | now split].
  - intros (Hin & Hn & Hc). split; [now right | now split].
Qed.

Lemma allocated_in_app_cons l1 l2 p0 lc cu0 shp cu :
  reads l1 = [p0] -> len (validated W p0) <> 0%nat ->
  conform_component master p0 (validated W p0) = (lc, inr cu0) ->
  allocated_in W master (l1 ++ l2) shp cu
  <-> (shp = p0 /\ cu = cu0) \/ allocated_in W master l2 shp cu.
Proof.
  intros Hr Hn Hc. unfold allocated_in. rewrite reads_app, Hr. cbn. split.
  - intros ([<-|Hin] & Hn' & lc' & Hc').
    + left. split; [reflexivity|]. rewrite Hc in Hc'. now injection Hc' as _ <-.
    + right. split; [assumption|]. split; [assumption | now exists lc'].
  - intros [[-> ->] | (Hin & Hn' & Hc')].
    + split; [now left|]. split; [assumption | now exists lc].
    + split; [now right | now split].
Qed.

Lemma loop_remaining shp_paths : forall mu rs l rem recs,
  sequential_allocation W master lnf shp_paths (mu, rs) = (l, inr (rem, recs)) ->
  forall p,
    covers rem p
    <-> covers mu p /\ forall shp cu, allocated_in W master l shp cu -> ~ covers cu p.
Proof.
  induction shp_paths as [|p0 rest IH]; intros mu rs l rem recs H p.
  - cbn in H. injection H as <- <- _. split; [|tauto].
    intros Hp. split; [assumption|]. intros shp cu ([] & _).
  - cbn [sequential_allocation] in H.
    apply bind_inr_inv in H as (l1 & [c [mu1 rs1]] & l2 & Hb & Hk & ->).
    pose proof (loop_body_reads W master lnf p0 mu rs) as Hr.
    rewrite Hb in Hr. unfold calls in Hr. cbn [fst] in Hr.
    pose proof (loop_body_view W master lnf p0 mu rs) as V.
    rewrite Hb in V. inversion V as [Hz Hl | | lc cu0 Hn Hc Hl]; subst.
    + (* an empty component *)
      rewrite (IH _ _ _ _ _ Hk p). split; intros [Hmu Hall]; (split; [assumption|]);
        intros shp cu Ha; apply (Hall shp cu);
        now apply (allocated_in_app_empty _ l2 p0 shp cu Hr Hz).
    + (* an allocated component *)
      assert (Hstep : forall l2',
                (forall shp cu, allocated_in W master
                                  ((read_calls W p0 ++ lc ++ allocation_calls cu0 mu) ++ l2')
                                  shp cu -> ~ covers cu p)
                <-> (~ covers cu0 p
                     /\ forall shp cu, allocated_in W master l2' shp cu -> ~ covers cu p)).
      { intros l2'. split.
        - intros Hall. split.
          + apply (Hall p0 cu0).
            apply (allocated_in_app_cons _ l2' p0 lc cu0 p0 cu0 Hr Hn Hc). now left.
          + intros shp cu Ha. apply (Hall shp cu).
            apply (allocated_in_app_cons _ l2' p0 lc cu0 shp cu Hr Hn Hc). now right.
        - intros [H0 Hall] shp cu Ha.
          apply (allocated_in_app_cons _ l2' p0 lc cu0 shp cu Hr Hn Hc) in Ha
            as [[-> ->] | Ha]; [assumption | now apply (Hall shp cu)]. }
      rewrite Hstep. destruct (control_after (remaining_after cu0 mu)).
      * rewrite (IH _ _ _ _ _ Hk p), covers_remaining_after. tauto.
      * injection Hk as <- <- _. rewrite covers_remaining_after.
        split; [|tauto]. intros [Hmu H0]. repeat split; try assumption.
        intros shp cu ([] & _).
Qed.

End Remaining.

(** When the loop ends without an exception, the final remaining geometry
    is the starting one minus every component the loop allocated: a point
    remains exactly when the master covers it and no allocated component
    does. *)
Theorem remaining_is_master_minus_components {E : GeometryEngine}
    {L : GeometryLaws E} (W : World) master lnf shp_paths mu rs l rem recs :
  sequential_allocation W master lnf shp_paths (mu, rs) = (l, inr (rem, recs)) ->
  forall p,
    covers rem p
    <-> covers mu p /\ forall shp cu, allocated_in W master l shp cu -> ~ covers cu p.
Proof. apply loop_remaining. Qed.

Lemma remaining_is_master_minus_components_witness :
  exists l recs,
    sequential_allocation Examples.hollow_world Examples.master10 "parent_folder"
      ["data/A/a.shp"; "data/B/b.shp"] (Raster.strip 0 10, [])
    = (l, inr (Raster.strip 0 3, recs))
    /\ (@covers Examples.E10 (Raster.strip 0 3) 2%nat
        <-> @covers Examples.E10 (Raster.strip 0 10) 2%nat
            /\ forall shp cu,
                 allocated_in Examples.hollow_world Examples.master10 l shp cu ->
                 ~ @covers Examples.E10 cu 2%nat).
Proof.
  eexists _, _. split; [vm_compute; reflexivity|].
  eapply (@remaining_is_master_minus_components Examples.E10 (RasterFacts.laws _)
            Examples.hollow_world Examples.master10 "parent_folder"
            ["data/A/a.shp"; "data/B/b.shp"] (Raster.strip 0 10) []).
  vm_compute. reflexivity.
Defined.

(** ** No double counting *)

Section Covered.

Context {E : GeometryEngine} {L : GeometryLaws E}.
Variable W : World.

Lemma recorded_area_of_nothing g :
  (forall p, ~ covers g p) -> recorded_area g == 0.
Proof.
  intros Hg. unfold recorded_area. destruct (is_empty g); [reflexivity|].
  rewrite (area_of_nothing g Hg). reflexivity.
Qed.

(** No double counting: if, within the remaining master, the second of two
    non-empty components lies inside the first, then whatever record the
    second gets has area 0. *)
Theorem covered_component_gets_nothing master lnf mu first second l1 l2 a b :
  len (validated W first) <> 0%nat ->
  len (validated W second) <> 0%nat ->
  conform_component master first (validated W first) = (l1, inr a) ->
  conform_component master second (validated W second) = (l2, inr b) ->
  (forall p, covers b p -> covers mu p -> covers a p) ->
  exists l rem r1 later,
    sequential_allocation W master lnf [first; second] (mu, [])
    = (l, inr (rem, r1 :: later))
    /\ Layer r1 = layer_name_of lnf first
    /\ Forall (fun r => Layer r = layer_name_of lnf second /\ area_ha r == 0) later.
Proof.
  intros N1 N2 C1 C2 Hin.
  pose proof (loop_body_allocate W master lnf first mu [] l1 a N1 C1) as B1.
  cbn [app] in B1.
  assert (Hzero : recorded_area (intersection b (remaining_after a mu)) == 0).
  { apply recorded_area_of_nothing. intros p.
    rewrite covers_intersection, covers_remaining_after.
    intros [Hb [Hmu Hna]]. apply Hna. now apply Hin. }
  destruct (control_after (remaining_after a mu)).
  - pose proof (loop_body_allocate W master lnf second (remaining_after a mu)
                  [mkRecord (layer_name_of lnf first)
                     (recorded_area (intersection a mu))] l2 b N2 C2) as B2.
    cbn [app] in B2.
    rewrite (loop_cons_next W _ _ _ _ _ _ _ B1).
    destruct (control_after (remaining_after b (remaining_after a mu)));
      [ rewrite (loop_cons_next W _ _ _ _ _ _ _ B2)
      | rewrite (loop_cons_break W _ _ _ _ _ _ _ B2) ];
      (eexists _, _, _, _; split; [reflexivity|]; split; [reflexivity|];
       constructor; [now split | constructor]).
  - rewrite (loop_cons_break W _ _ _ _ _ _ _ B1).
    eexists _, _, _, _. split; [reflexivity|]. split; [reflexivity | constructor].
Qed.

End Covered.

Lemma covered_component_gets_nothing_witness :
  exists l rem r1 later,
    sequential_allocation MoreExamples.nested_world Examples.master10
      "parent_folder" ["data/A/a.shp"; "data/B/b.shp"] (Raster.strip 0 10, [])
    = (l, inr (rem, r1 :: later))
    /\ Layer r1 = "A"
    /\ Forall (fun r => Layer r = "B" /\ area_ha r == 0) later.
Proof.
  apply (@covered_component_gets_nothing Examples.E10 (RasterFacts.laws _)
           MoreExamples.nested_world Examples.master10 "parent_folder"
           (Raster.strip 0 10) "data/A/a.shp" "data/B/b.shp"
           [EvUnionAll] [EvUnionAll] (Raster.strip 0 6) (Raster.strip 2 3)).
  - vm_compute. discriminate.
  - vm_compute. discriminate.
  - vm_compute. reflexivity.
  - vm_compute. reflexivity.
  - intros p Hb _. apply in_seq in Hb. apply in_seq. lia.
Defined.

(** ** The order of the rows *)

Lemma nodup_strictly_sorted l :
  StronglySorted string_le l -> StronglySorted string_lt (nodup string_dec l).
Proof.
  induction l as [|x l IH]; intros S; cbn [nodup]; [constructor|].
  apply StronglySorted_inv in S as [S F].
  destruct (in_dec string_dec x l) as [Hin|Hnin]; [now apply IH|].
  constructor; [now apply IH|].
  rewrite Forall_forall in F |- *. intros y Hy. apply nodup_In in Hy.
  split; [now apply F|]. intros ->. contradiction.
Qed.

Lemma aggregate_names records l table :
  aggregate records = (l, inr table) -> map Layer table = group_keys records.
Proof.
  destruct records as [|r df]; [discriminate|].
  rewrite aggregate_nonempty. intros [= _ <-].
  rewrite map_map. cbn. apply map_id.
Qed.

(** The rows of the table come in strictly ascending order of layer name,
    whatever the order of the records. *)
Theorem table_sorted_by_layer (records : list record) l table :
  aggregate records = (l, inr table) ->
  StronglySorted string_lt (map Layer table)
  /\ forall records', Permutation records records' ->
       map Layer (match outcome (aggregate records') with
                  | inr t => t | inl _ => [] end)
       = map Layer table.
Proof.
  intros H. pose proof (aggregate_names records l table H) as Hn.
  split.
  - rewrite Hn. apply nodup_strictly_sorted, sorted_StronglySorted.
  - intros records' P.
    destruct records' as [|r' df'].
    { apply Permutation_sym, Permutation_nil in P. subst. discriminate. }
    rewrite aggregate_nonempty. unfold outcome. cbn [snd].
    rewrite map_map. cbn [Layer]. rewrite map_id, Hn.
    unfold group_keys.
    now rewrite (sorted_of_permutation _ _ (Permutation_map Layer P)).
Qed.

Lemma table_sorted_by_layer_witness :
  StronglySorted string_lt
    (map Layer [mkRecord "A" (2 # 10); mkRecord "B" (8 # 10)]).
Proof.
  apply (table_sorted_by_layer MoreExamples.three_records []).
  vm_compute. reflexivity.
Defined.

(** ** Layer names *)

Lemma split_on_nonempty sep s : split_on sep s <> [].
Proof.
  destruct s as [|c s]; cbn; [discriminate|].
  destruct (Ascii.eqb c sep); [discriminate|].
  destruct (split_on sep s); discriminate.
Qed.

Lemma split_on_app sep s1 s2 :
  split_on sep (String.append s1 (String sep s2))
  = split_on sep s1 ++ split_on sep s2.
Proof.
  induction s1 as [|c s1 IH]; cbn [String.append split_on].
  - now rewrite Ascii.eqb_refl.
  - rewrite IH. destruct (Ascii.eqb c sep); [reflexivity|].
    destruct (split_on sep s1) as [|h t] eqn:Hs; [|reflexivity].
    now apply split_on_nonempty in Hs.
Qed.

Lemma split_on_absent sep s : occurs sep s = false -> split_on sep s = [s].
Proof.
  induction s as [|c s IH]; cbn; [reflexivity|].
  intros H. apply orb_false_iff in H as [Hc Hs]. now rewrite Hc, (IH Hs).
Qed.

Lemma path_parts_file f : is_file_name f -> path_parts f = [f].
Proof.
  intros (H1 & H2 & H3). unfold path_parts. rewrite (split_on_absent _ _ H3).
  cbn. apply String.eqb_neq in H1, H2. now rewrite H1, H2.
Qed.

Lemma path_parts_join d f :
  is_file_name f ->
  path_parts (String.append d (String "/" f)) = path_parts d ++ [f].
Proof.
  intros Hf. unfold path_parts at 1. rewrite split_on_app, filter_app.
  fold (path_parts d). fold (path_parts f). now rewrite (path_parts_file f Hf).
Qed.

Lemma rfind_dot_app s t : forall i,
  rfind_dot (String.append s t) i
  = match rfind_dot t (i + String.length s) with
    | Some j => Some j
    | None => rfind_dot s i
    end.
Proof.
  induction s as [|c s IH]; intros i; cbn [String.append rfind_dot String.length].
  - rewrite Nat.add_0_r. now destruct (rfind_dot t i).
  - rewrite IH, <- plus_n_Sm. cbn [Nat.add].
    now destruct (rfind_dot t (S (i + String.length s))).
Qed.

Lemma substring_prefix s t : substring 0 (String.length s) (String.append s t) = s.
Proof.
  induction s as [|c s IH]; cbn.
  - now destruct t.
  - now rewrite IH.
Qed.

Lemma length_append s t :
  String.length (String.append s t) = (String.length s + String.length t)%nat.
Proof. induction s as [|c s IH]; cbn; [reflexivity | now rewrite IH]. Qed.

Lemma stem_shp d n :
  n <> "" -> is_file_name (String.append n ".shp") ->
  stem (String.append d (String "/" (String.append n ".shp"))) = n.
Proof.
  intros Hn Hf. unfold stem, path_name.
  rewrite (path_parts_join d _ Hf), last_last.
  rewrite rfind_dot_app. cbn [rfind_dot Ascii.eqb Bool.eqb Nat.add].
  rewrite length_append. cbn [String.length].
  assert (Hpos : (0 < String.length n)%nat).
  { destruct n; [contradiction | cbn; lia]. }
  assert (H1 : (0 <? String.length n)%nat = true) by now apply Nat.ltb_lt.
  assert (H2 : (String.length n <? String.length n + 4 - 1)%nat = true)
    by (apply Nat.ltb_lt; lia).
  rewrite H1, H2. cbn [andb]. apply substring_prefix.
Qed.

(** Layer names of a file [f] in a directory [d].  Under any policy other
    than ["filename"] the layer is named after the directory, so the files
    of one directory share a layer; under ["filename"] a file [n.shp] is
    named [n], whatever dots [n] contains; and a bare file name has the
    empty parent name. *)
Theorem layer_names_of_paths (lnf d f : string) :
  is_file_name f ->
  (lnf <> "filename" ->
   layer_name_of lnf (String.append d (String "/" f)) = path_name d)
  /\ (forall n, n <> "" -> f = String.append n ".shp" ->
        layer_name_of "filename" (String.append d (String "/" f)) = n)
  /\ parent_name f = "".
Proof.
  intros Hf. split; [|split].
  - intros Hp. unfold layer_name_of. apply String.eqb_neq in Hp. rewrite Hp.
    unfold parent_name, path_name. now rewrite (path_parts_join d f Hf), removelast_last.
  - intros n Hn ->. unfold layer_name_of.
    rewrite String.eqb_refl. now apply stem_shp.
  - unfold parent_name. now rewrite (path_parts_file f Hf).
Qed.

Lemma layer_names_of_paths_witness :
  layer_name_of "parent_folder" "data/roads/north.part.shp" = "roads"
  /\ layer_name_of "filename" "data/roads/north.part.shp" = "north.part"
  /\ layer_name_of "file_name" "data/roads/north.part.shp" = "roads".
Proof.
  assert (Hf : is_file_name "north.part.shp").
  { repeat split; discriminate. }
  destruct (layer_names_of_paths "parent_folder" "data/roads" "north.part.shp" Hf)
    as (H1 & H2 & _).
  split; [|split].
  - apply H1. discriminate.
  - apply (H2 "north.part"); [discriminate | reflexivity].
  - reflexivity.
Defined.

(** ** Whole cover and disjoint components *)

Section Cover.

Context {E : GeometryEngine} {L : GeometryLaws E}.
Variable W : World.

Lemma is_empty_ext g1 g2 :
  (forall p, covers g1 p <-> covers g2 p) -> is_empty g1 = is_empty g2.
Proof.
  intros H. destruct (is_empty g1) eqn:H1, (is_empty g2) eqn:H2; try reflexivity.
  - assert (Hn : is_empty g2 = true).
    { apply is_empty_covers. intros p Hp. apply H in Hp.
      now apply (proj1 (is_empty_covers g1) H1 p). }
    congruence.
  - assert (Hn : is_empty g1 = true).
    { apply is_empty_covers. intros p Hp. apply H in Hp.
      now apply (proj1 (is_empty_covers g2) H2 p). }
    congruence.
Qed.

Lemma recorded_area_ext g1 g2 :
  (forall p, covers g1 p <-> covers g2 p) -> recorded_area g1 == recorded_area g2.
Proof.
  intros H. unfold recorded_area. rewrite (is_empty_ext g1 g2 H).
  destruct (is_empty g2); [reflexivity|]. now rewrite (area_ext g1 g2 H).
Qed.

(** A non-empty component that covers all of the remaining master takes
    all of it: its record has the area of the remaining master, the
    remaining geometry becomes empty, the loop stops there and none of the
    files after it is read. *)
Theorem full_cover_takes_all master lnf mu pA lA a rest rs :
  len (validated W pA) <> 0%nat ->
  conform_component master pA (validated W pA) = (lA, inr a) ->
  (forall p, covers mu p -> covers a p) ->
  exists l rem x,
    sequential_allocation W master lnf (pA :: rest) (mu, rs)
    = (l, inr (rem, rs ++ [mkRecord (layer_name_of lnf pA) x]))
    /\ x == area mu / 10000
    /\ is_empty rem = true
    /\ reads l = [pA].
Proof.
  intros N C Hcov.
  pose proof (loop_body_allocate W master lnf pA mu rs lA a N C) as B.
  pose proof (loop_body_reads W master lnf pA mu rs) as Hr.
  rewrite B in Hr. unfold calls in Hr. cbn [fst] in Hr.
  assert (Hem : is_empty (remaining_after a mu) = true).
  { apply is_empty_covers. intros p. rewrite covers_remaining_after.
    intros [Hmu Hna]. apply Hna. now apply Hcov. }
  unfold control_after in B. rewrite Hem in B.
  rewrite (loop_cons_break W _ _ _ rest _ _ _ B).
  eexists _, _, _. split; [reflexivity|]. split; [|split; assumption].
  unfold recorded_area. destruct (is_empty (intersection a mu)) eqn:Hi.
  - assert (Hz : area mu == 0).
    { apply area_of_nothing. intros p Hp.
      apply (proj1 (is_empty_covers _) Hi p). apply covers_intersection.
      split; [now apply Hcov | assumption]. }
    rewrite Hz. reflexivity.
  - assert (Ha : area (intersection a mu) == area mu).
    { apply area_ext. intros p. rewrite covers_intersection.
      split; [tauto|]. intros Hp. split; [now apply Hcov | assumption]. }
    now rewrite Ha.
Qed.

(** Components that share no ground within the master do not compete: a
    component processed after such a component is recorded with the same
    area as if it had been processed first. *)
Theorem disjoint_components_commute master lnf mu pA pB lA lB a b :
  len (validated W pA) <> 0%nat ->
  len (validated W pB) <> 0%nat ->
  conform_component master pA (validated W pA) = (lA, inr a) ->
  conform_component master pB (validated W pB) = (lB, inr b) ->
  (forall p, covers mu p -> covers a p -> ~ covers b p) ->
  exists l rem later,
    sequential_allocation W master lnf [pB; pA] (mu, [])
    = (l, inr (rem, mkRecord (layer_name_of lnf pB)
                      (recorded_area (intersection b mu)) :: later))
    /\ (later = []
        \/ exists x, later = [mkRecord (layer_name_of lnf pA) x]
                     /\ x == recorded_area (intersection a mu)).
Proof.
  intros NA NB CA CB Hdis.
  pose proof (loop_body_allocate W master lnf pB mu [] lB b NB CB) as B1.
  cbn [app] in B1.
  assert (Hsame : recorded_area (intersection a (remaining_after b mu))
                  == recorded_area (intersection a mu)).
  { apply recorded_area_ext. intros p.
    rewrite !covers_intersection, covers_remaining_after.
    split; [tauto|]. intros [Ha Hmu]. repeat split; try assumption.
    now apply Hdis. }
  destruct (control_after (remaining_after b mu)).
  - pose proof (loop_body_allocate W master lnf pA (remaining_after b mu)
                  [mkRecord (layer_name_of lnf pB)
                     (recorded_area (intersection b mu))] lA a NA CA) as B2.
    cbn [app] in B2.
    rewrite (loop_cons_next W _ _ _ _ _ _ _ B1).
    destruct (control_after (remaining_after a (remaining_after b mu)));
      [ rewrite (loop_cons_next W _ _ _ _ _ _ _ B2)
      | rewrite (loop_cons_break W _ _ _ _ _ _ _ B2) ];
      (eexists _, _, _; split; [reflexivity|]; right; eexists;
       split; [reflexivity | exact Hsame]).
  - rewrite (loop_cons_break W _ _ _ _ _ _ _ B1).
    eexists _, _, _. split; [reflexivity | now left].
Qed.

End Cover.

Lemma full_cover_takes_all_witness :
  exists l rem x,
    sequential_allocation Examples.full_world Examples.master10 "parent_folder"
      ["data/A/a.shp"; "data/B/b.shp"] (Raster.strip 0 10, [])
    = (l, inr (rem, [] ++ [mkRecord "A" x]))
    /\ x == @area Examples.E10 (Raster.strip 0 10) / 10000
    /\ @is_empty Examples.E10 rem = true
    /\ reads l = ["data/A/a.shp"].
Proof.
  apply (@full_cover_takes_all Examples.E10 (RasterFacts.laws _) Examples.full_world
           Examples.master10 "parent_folder" (Raster.strip 0 10)
           "data/A/a.shp" [EvUnionAll] (Raster.strip 0 12) ["data/B/b.shp"] []).
  - vm_compute. discriminate.
  - vm_compute. reflexivity.
  - intros p Hp. apply in_seq in Hp. apply in_seq. lia.
Defined.

Lemma disjoint_components_commute_witness :
  exists l rem later,
    sequential_allocation MoreExamples.mixed_world MoreExamples.mixed_master
      "parent_folder" ["data/N/n.shp"; "data/B/b.shp"] (Raster.strip 0 10, [])
    = (l, inr (rem, mkRecord "N"
                      (@recorded_area Examples.E10
                         (@intersection Examples.E10 (Raster.strip 8 4)
                                        (Raster.strip 0 10))) :: later))
    /\ (later = []
        \/ exists x, later = [mkRecord "B" x]
                     /\ x == @recorded_area Examples.E10
                               (@intersection Examples.E10 (Raster.strip 3 4)
                                              (Raster.strip 0 10))).
Proof.
  apply (@disjoint_components_commute Examples.E10 (RasterFacts.laws _)
           MoreExamples.mixed_world MoreExamples.mixed_master "parent_folder"
           (Raster.strip 0 10) "data/B/b.shp" "data/N/n.shp"
           [EvUnionAll] [EvToCrs EPSG_5551; EvUnionAll]
           (Raster.strip 3 4) (Raster.strip 8 4)).
  - vm_compute. discriminate.
  - vm_compute. discriminate.
  - vm_compute. reflexivity.
  - vm_compute. reflexivity.
  - intros p _ Ha Hb. apply in_seq in Ha. apply in_seq in Hb. lia.
Defined.

(** ** An empty master *)

Lemma validated_len_zero {E : GeometryEngine} (W : World) path :
  len (validated W path) = 0%nat
  <-> forall g, In (Some g) (geometry (read_file W path)) -> make_valid g = None.
Proof.
  unfold validated, len, keep_notnull, make_valid_column. cbn [geometry crs].
  set (rows := geometry (read_file W path)).
  destruct (List.length (filter notnull rows) =? 0)%nat eqn:Hz; cbn [geometry].
  - apply Nat.eqb_eq in Hz. split; [|intros _; assumption].
    intros _ g Hg. now apply (filter_notnull_nil rows Hz) in Hg.
  - split.
    + intros Hlen g Hg.
      destruct (make_valid g) as [g'|] eqn:Hmv; [|reflexivity].
      assert (Hin : In (Some g')
                (filter notnull
                   (map (fun o => match o with Some g0 => make_valid g0 | None => None end)
                        (filter notnull rows)))).
      { apply In_keep_notnull_rows, in_map_iff. exists (Some g).
        split; [assumption | now apply In_keep_notnull_rows]. }
      destruct (filter notnull (map _ (filter notnull rows)));
        [contradiction | discriminate].
    + intros Hall.
      destruct (filter notnull
                  (map (fun o => match o with Some g0 => make_valid g0 | None => None end)
                       (filter notnull rows))) as [|o r] eqn:Hf; [reflexivity|].
      exfalso.
      assert (Ho : In o (filter notnull
                  (map (fun o => match o with Some g0 => make_valid g0 | None => None end)
                       (filter notnull rows)))) by (rewrite Hf; now left).
      apply filter_In in Ho as [Ho Hnn].
      apply in_map_iff in Ho as ([g|] & Hmv & Hg); [|subst; discriminate].
      rewrite In_keep_notnull_rows in Hg. rewrite (Hall g Hg) in Hmv.
      subst. discriminate.
Qed.

(** The run aborts with the empty-master error exactly when no feature of
    the master file survives validation: every row is null or cannot be
    repaired. *)
Theorem master_empty_iff {E : GeometryEngine} (W : World)
    (root master_path lnf : string) (sort_layers : bool) :
  outcome (allocate_non_overlapping_areas W root master_path lnf sort_layers)
  = inl ValueError_MasterEmpty
  <-> forall g, In (Some g) (geometry (read_file W master_path)) ->
                make_valid g = None.
Proof.
  rewrite <- validated_len_zero.
  destruct (read_master_cases W master_path)
    as [[H0 Hm] | [(Hn & Hc & Hm) | (Hn & Hc & lm & master & mu & Hm)]].
  - rewrite (allocate_master_raise W root _ lnf sort_layers _ _ Hm). now split.
  - rewrite (allocate_master_raise W root _ lnf sort_layers _ _ Hm).
    split; [discriminate | contradiction].
  - rewrite (allocate_master_ok W root _ lnf sort_layers _ _ _ Hm).
    unfold outcome at 1. cbn [snd]. split; [|contradiction].
    intros H. exfalso.
    destruct (read_master_inv W master_path lm master mu Hm)
      as (_ & _ & _ & (mc & Hmc & _) & _).
    destruct (outcome (sequential_allocation W master lnf
                         (component_paths W root sort_layers) (mu, [])))
      as [e|[rem results]] eqn:Ho.
    + apply (loop_raises_component W master mc lnf _ Hmc) in Ho as (shp & _ & -> & _).
      discriminate.
    + destruct results; discriminate.
Qed.

Lemma master_empty_iff_witness :
  outcome (allocate_non_overlapping_areas Examples.void_world
             "data" "master.shp" "parent_folder" false)
  = inl ValueError_MasterEmpty.
Proof.
  apply (proj2 (@master_empty_iff Examples.E10 Examples.void_world
                  "data" "master.shp" "parent_folder" false)).
  intros g [].
Defined.
